(** * Linear recurrence sequences of order d

    A shallow embedding of [sage/combinat/linear_recurrence_sequences.py]:
    the class [LinearRecurrenceSequence] with its constructor, term
    evaluation by companion-matrix exponentiation, characteristic polynomial
    and minimal polynomial, together with the properties its specification
    states about them.

    Python integers are [Z], Python lists are [list], a raised exception is
    the [Raise] branch of [result], and a returned rational that is not an
    integer its [Fraction] branch. *)

From Stdlib Require Import String Ascii DecimalString DecimalZ DecimalPos.
From Stdlib Require Import ZArith Zcong Bool.
From Stdlib Require Import QArith Qcanon List Lia.
Import ListNotations.
Local Open Scope Z_scope.

Set Implicit Arguments.

(** ** Exceptions and the result monad *)

(** The coercion of an integer into the rationals. *)
Definition Z2Qc (z : Z) : Qc := Q2Qc (inject_Z z).

(** The exceptions the module can let escape.  [ValueError] and
    [NotImplementedError] are raised by [__init__] with the messages of the
    source; [IndexError] is Python's for [l[0]] on an empty list;
    [ZeroDivisionError] is raised by the inversion of a singular matrix.
    [InvalidModulus] and [InvalidIndex] are the two error kinds of the
    specification that no code path raises; they are kept to state so. *)
Inductive exn : Type :=
| ValueError (msg : string)
| NotImplementedError (msg : string)
| IndexError (msg : string)
| ZeroDivisionError
| InvalidModulus
| InvalidIndex.

(** The outcome of a call: a value, an exception, or, where an integer is
    expected, a rational that is not an integer. *)
Inductive result (A : Type) : Type :=
| OK (x : A)
| Raise (e : exn)
| Fraction (q : Qc).

Arguments OK {A} x.
Arguments Raise {A} e.
Arguments Fraction {A} q.

Definition bind {A B : Type} (r : result A) (k : A -> result B) : result B :=
  match r with
  | OK x => k x
  | Raise e => Raise e
  | Fraction q => Fraction q
  end.

Notation "x <- r ;; k" := (bind r (fun x => k))
  (at level 61, r at next level, right associativity).

(** [[f(x) for x in l]] where [f] may raise: left to right, the first
    exception wins. *)
Fixpoint mapM {A B : Type} (f : A -> result B) (l : list A) : result (list B) :=
  match l with
  | [] => OK []
  | x :: xs => y <- f x ;; ys <- mapM f xs ;; OK (y :: ys)
  end.

(** The error kinds of the specification's taxonomy. *)
Inductive error_kind : Type :=
| LengthMismatch
| UnsupportedOrder
| UseBinarySpecialization
| InvalidIndexKind
| InvalidModulusKind
| OtherError.

Definition msg_length_mismatch : string :=
  "length of initial conditions list u must match length of definition list a".
Definition msg_order_lt_2 : string :=
  "not implemented for order d < 2".
Definition msg_order_2 : string :=
  "use BinaryRecurrenceSequence for recurrence sequences of order 2".

Definition kind_of (e : exn) : error_kind :=
  match e with
  | ValueError m =>
      if String.eqb m msg_length_mismatch then LengthMismatch else OtherError
  | NotImplementedError m =>
      if String.eqb m msg_order_lt_2 then UnsupportedOrder
      else if String.eqb m msg_order_2 then UseBinarySpecialization
      else OtherError
  | IndexError _ => OtherError
  | ZeroDivisionError => OtherError
  | InvalidModulus => InvalidModulusKind
  | InvalidIndex => InvalidIndexKind
  end.

(** Python's [len] and [range]. *)
Definition len {A : Type} (l : list A) : Z := Z.of_nat (length l).
Definition range (n : Z) : list Z := map Z.of_nat (seq 0 (Z.to_nat n)).

(** [l[0]]. *)
Definition getitem0 (l : list Z) : result Z :=
  match l with
  | [] => Raise (IndexError "list index out of range")
  | x :: _ => OK x
  end.

(** ** Rings: [Integers(modulus)] *)

(** [x / den] as the call returns it: an integer when the division is
    exact, the rational otherwise. *)
Definition quotient (x den : Z) : result Z :=
  if x mod den =? 0 then OK (x / den)
  else Fraction (Z2Qc x / Z2Qc den)%Qc.

(** [sum_{i < n} f i]. *)
Fixpoint zsum (f : nat -> Z) (n : nat) : Z :=
  match n with
  | O => 0
  | S k => zsum f k + f k
  end.

(** The base rings term evaluation works over: the integers, or the integers
    modulo a positive [m] with canonical representatives in [0, m). *)
Inductive ring : Type :=
| ZZ
| Zmod (m : Z).

(** Modelled from the spec: the constructor [Integers] of
    [sage.rings.finite_rings.integer_mod_ring] is not part of the sources at
    hand.  The sentinel [0] gives the ring of integers (no reduction), a
    positive modulus the integers modulo it ([1] being the zero ring).  The
    spec has a negative modulus rejected; the constructor of the library
    does not reject it: the ring of [-m] is the ring of [m], so that
    [Integers(-7)] is the ring of integers modulo [7]. *)
Definition Integers (modulus : Z) : result ring :=
  if modulus =? 0 then OK ZZ
  else OK (Zmod (Z.abs modulus)).

(** Coercion of an integer into the ring. *)
Definition coerce (R : ring) (x : Z) : Z :=
  match R with
  | ZZ => x
  | Zmod m => x mod m
  end.

Definition radd (R : ring) (x y : Z) : Z := coerce R (x + y).
Definition rmul (R : ring) (x y : Z) : Z := coerce R (x * y).
Definition rzero (R : ring) : Z := coerce R 0.
Definition rone (R : ring) : Z := coerce R 1.

(** ** Dense matrices and vectors *)

(** A matrix is the list of its rows. *)
Definition matrix : Type := list (list Z).

(** Modelled from the spec: [companion_matrix(poly, format='bottom')] of
    [sage.matrix.special] is not part of the sources at hand.  For the
    coefficient list, lowest degree first, of a monic polynomial of degree
    [n] it is the [n] by [n] matrix with ones on the superdiagonal and the
    negated non-leading coefficients in the bottom row, so that it sends
    [(u_k, ..., u_{k+n-1})] to [(u_{k+1}, ..., u_{k+n})]. *)
Definition companion_matrix (poly : list Z) : matrix :=
  let n := (length poly - 1)%nat in
  match n with
  | O => []
  | S n' =>
      map (fun i => map (fun j => if Nat.eqb j (S i) then 1 else 0) (seq 0 n))
          (seq 0 n')
      ++ [map Z.opp (firstn n poly)]
  end.

(** Modelled from the spec: [M.change_ring(R)], not part of the sources at
    hand, maps every entry through the coercion into [R]. *)
Definition change_ring (R : ring) (M : matrix) : matrix :=
  map (map (coerce R)) M.

(** Modelled from the spec: [vector(R, l)], not part of the sources at hand,
    is the vector of the entries of [l] coerced into [R]. *)
Definition vector (R : ring) (l : list Z) : list Z := map (coerce R) l.

Definition dot (R : ring) (x y : list Z) : Z :=
  fold_right (fun p acc => radd R (rmul R (fst p) (snd p)) acc)
             (rzero R) (combine x y).

(** Modelled from the spec: the matrix-vector product [M * v], not part of
    the sources at hand. *)
Definition mat_vec (R : ring) (M : matrix) (v : list Z) : list Z :=
  map (fun row => dot R row v) M.

Definition vadd (R : ring) (x y : list Z) : list Z :=
  map (fun p => radd R (fst p) (snd p)) (combine x y).

Definition vscale (R : ring) (c : Z) (x : list Z) : list Z :=
  map (rmul R c) x.

Definition ncols (M : matrix) : nat :=
  match M with
  | [] => O
  | row :: _ => length row
  end.

(** The linear combination [sum_k r_k * B_k] of the rows of [B]. *)
Definition lincomb (R : ring) (n : nat) (r : list Z) (B : matrix) : list Z :=
  fold_right (fun p acc => vadd R (vscale R (fst p) (snd p)) acc)
             (repeat (rzero R) n) (combine r B).

(** Modelled from the spec: the matrix product [A * B], not part of the
    sources at hand: row [i] of the product is the combination of the rows
    of [B] with the coefficients of row [i] of [A]. *)
Definition mat_mul (R : ring) (A B : matrix) : matrix :=
  map (fun row => lincomb R (ncols B) row B) A.

Definition identity_matrix (R : ring) (n : nat) : matrix :=
  map (fun i =>
         map (fun j => if Nat.eqb i j then rone R else rzero R) (seq 0 n))
      (seq 0 n).

(** Square and multiply along the binary digits of the exponent. *)
Fixpoint mat_pow_pos (R : ring) (M : matrix) (p : positive) : matrix :=
  match p with
  | xH => M
  | xO q => let S := mat_pow_pos R M q in mat_mul R S S
  | xI q => let S := mat_pow_pos R M q in mat_mul R M (mat_mul R S S)
  end.

(** The list without its entry of index [i]. *)
Definition remove_nth {A : Type} (i : nat) (l : list A) : list A :=
  firstn i l ++ skipn (S i) l.

(** The matrix without row [i] and column [j]. *)
Definition minor (i j : nat) (M : matrix) : matrix :=
  map (remove_nth j) (remove_nth i M).

Definition sign (i : nat) : Z := if Nat.even i then 1 else -1.

(** The determinant of a matrix of size [n], expanded along its first
    column. *)
Fixpoint det (n : nat) (M : matrix) : Z :=
  match n with
  | O => 1
  | S n' =>
      zsum (fun i => sign i * nth 0 (nth i M []) 0 * det n' (minor i 0 M))
           (S n')
  end.

(** The transpose of the matrix of cofactors. *)
Definition adjugate (n : nat) (M : matrix) : matrix :=
  map (fun i =>
         map (fun j => sign (i + j) * det (n - 1) (minor j i M)) (seq 0 n))
      (seq 0 n).

(** [c] times the identity matrix. *)
Definition scalar_matrix (R : ring) (c : Z) (n : nat) : matrix :=
  map (fun i =>
         map (fun j => if Nat.eqb i j then coerce R c else rzero R) (seq 0 n))
      (seq 0 n).

Definition matrix_eqb (A B : matrix) : bool :=
  if list_eq_dec (list_eq_dec Z.eq_dec) A B then true else false.

(** [G / den] is a two-sided inverse of [M] over [R]. *)
Definition is_inverse (R : ring) (M G : matrix) (den : Z) : bool :=
  matrix_eqb (mat_mul R M G) (scalar_matrix R den (length M))
  && matrix_eqb (mat_mul R G M) (scalar_matrix R den (length M)).

(** Modelled from the spec: the matrix inverse [~M] of [sage.matrix], not
    part of the sources at hand, of which the spec says nothing: it is the
    inverse of the library.  A matrix over the integers is inverted over
    the rationals: the inverse is returned as an integer matrix over a
    common denominator, here the adjugate over the determinant.  A matrix
    over the integers modulo [m] is inverted in that ring.  A matrix
    without inverse raises [ZeroDivisionError].  The candidate is checked
    to be the inverse before it is returned. *)
Definition inverse (R : ring) (M : matrix) : result (matrix * Z) :=
  let n := length M in
  match R with
  | ZZ =>
      let D := det n M in
      let N := adjugate n M in
      if negb (D =? 0) && is_inverse ZZ M N D then OK (N, D)
      else Raise ZeroDivisionError
  | Zmod m =>
      let e := Z.invmod (det n M) m in
      let G := change_ring R (map (map (Z.mul e)) (adjugate n M)) in
      if is_inverse R M G 1 then OK (G, 1)
      else Raise ZeroDivisionError
  end.

(** Modelled from the spec: the matrix power [M ** n] of [sage.matrix], not
    part of the sources at hand: exponentiation by repeated squaring, the
    zeroth power being the identity.  The spec has a negative index
    rejected; the power of the library does not reject a negative exponent,
    it is the power of the inverse.  The result is a matrix of integers
    over a common denominator, which is [1] except for a negative power
    over the integers. *)
Definition matrix_power (R : ring) (M : matrix) (n : Z)
  : result (matrix * Z) :=
  match n with
  | Z0 => OK (identity_matrix R (length M), 1)
  | Zpos p => OK (mat_pow_pos R M p, 1)
  | Zneg p =>
      G <- inverse R M ;;
      OK (mat_pow_pos R (fst G) p, snd G ^ Zpos p)
  end.

(** ** Polynomials over the integers *)

(** A polynomial over the integers: its coefficients, lowest degree first,
    without trailing zeros; the zero polynomial is the empty list. *)
Definition polynomial : Type := list Z.

Fixpoint strip (l : list Z) : list Z :=
  match l with
  | [] => []
  | c :: l' =>
      match strip l' with
      | [] => if c =? 0 then [] else [c]
      | r => c :: r
      end
  end.

(** Modelled from the spec: [PolynomialRing(R, 'x')(coeffs)], not part of
    the sources at hand, builds the univariate polynomial over [R] from a
    coefficient list, lowest degree first. *)
Definition PolynomialRing (R : ring) (coeffs : list Z) : polynomial :=
  strip (map (coerce R) coeffs).

Definition degree (p : polynomial) : Z := len p - 1.
Definition coefficient (p : polynomial) (k : Z) : Z :=
  if k <? 0 then 0 else nth (Z.to_nat k) p 0.
Definition leading_coefficient (p : polynomial) : Z := last p 0.

(** Value of a polynomial at a point (Horner). *)
Fixpoint eval (p : polynomial) (x : Z) : Z :=
  match p with
  | [] => 0
  | c :: p' => c + x * eval p' x
  end.

(** ** The class [LinearRecurrenceSequence] *)

Record LinearRecurrenceSequence : Type := mkLRS {
  u : list Z;
  a : list Z;
  d : Z
}.

(** [LinearRecurrenceSequence.__init__]: the three attributes are set, then
    the lengths and the order are checked, in this order. *)
Definition __init__ (u a : list Z) : result LinearRecurrenceSequence :=
  let self := mkLRS u a (len u) in
  if negb (len u =? len a) then
    Raise (ValueError msg_length_mismatch)
  else if d self <? 3 then
    if d self <? 2 then
      Raise (NotImplementedError msg_order_lt_2)
    else
      Raise (NotImplementedError msg_order_2)
  else OK self.

(** The coefficient list [[-c for c in reversed(self.a)] + [1]] shared by
    [__call__], [characteristic_polynomial] and [transformation_matrix]. *)
Definition charpoly_list (self : LinearRecurrenceSequence) : list Z :=
  map Z.opp (rev (a self)) ++ [1].

(** [LinearRecurrenceSequence.__call__].  The product [F**n * v] is kept
    as integers over the common denominator of the power, by which the
    entry returned is divided. *)
Definition __call__ (self : LinearRecurrenceSequence) (n : Z) (modulus : Z)
  : result Z :=
  R <- Integers modulus ;;
  let charpoly := charpoly_list self in
  let F := change_ring R (companion_matrix charpoly) in
  let v := vector R (u self) in
  P <- matrix_power R F n ;;
  x <- getitem0 (mat_vec R (fst P) v) ;;
  quotient x (snd P).

(** [self(n)]: the call with the default [modulus=0]. *)
Definition term (self : LinearRecurrenceSequence) (n : Z) : result Z :=
  __call__ self n 0.

(** [LinearRecurrenceSequence.characteristic_polynomial]: the polynomial
    ring is the one over [Integers()], the ring of integers. *)
Definition characteristic_polynomial (self : LinearRecurrenceSequence)
  : result polynomial :=
  ZZx <- Integers 0 ;;
  OK (PolynomialRing ZZx (charpoly_list self)).

(** [LinearRecurrenceSequence.transformation_matrix]. *)
Definition transformation_matrix (self : LinearRecurrenceSequence) : matrix :=
  companion_matrix (charpoly_list self).

(** [LinearRecurrenceSequence.__eq__]. *)
Definition __eq__ (self other : LinearRecurrenceSequence) : bool :=
  (if list_eq_dec Z.eq_dec (u self) (u other) then true else false)
  && (if list_eq_dec Z.eq_dec (a self) (a other) then true else false).

(** The Tribonacci sequence of the module's examples. *)
Definition tribonacci : LinearRecurrenceSequence := mkLRS [0; 0; 1] [1; 1; 1] 3.

(** ** The sequence of terms *)

(** A square matrix of size [n]. *)
Definition square (n : nat) (M : matrix) : Prop :=
  length M = n /\ Forall (fun row => length row = n) M.

(** The window [(u_k, ..., u_{k+d-1})] reached after [k] applications of the
    companion matrix of the coefficients to the initial terms. *)
Definition window (coeffs init : list Z) (k : nat) : list Z :=
  Nat.iter k (mat_vec ZZ (companion_matrix (map Z.opp (rev coeffs) ++ [1])))
           init.

(** The [k]-th term: the head of the [k]-th window. *)
Definition term_value (coeffs init : list Z) (k : nat) : Z :=
  hd 0 (window coeffs init k).

(** The value of the [k]-th term of a recurrence object. *)
Definition value (self : LinearRecurrenceSequence) (k : nat) : Z :=
  term_value (a self) (u self) k.



(** ** Polynomials over the rationals *)

Local Open Scope Qc_scope.

(** [act f s n = sum_k f_k * s (n + k)]: the polynomial [f], coefficients
    lowest degree first, applied as a shift operator to the sequence [s]. *)
Fixpoint act (f : list Qc) (s : nat -> Qc) (n : nat) : Qc :=
  match f with
  | [] => 0
  | c :: f' => c * s n + act f' s (S n)
  end.

Definition qsub (x y : list Qc) : list Qc :=
  map (fun p => fst p - snd p) (combine x y).

Definition qscale (c : Qc) (x : list Qc) : list Qc := map (Qcmult c) x.

(** Long division of [c] by a monic [p], coefficients lowest degree first:
    [c = c0 + x * c'] is divided through the division of [c'], the
    remainder being kept on [length p - 1] coefficients. *)
Fixpoint poly_divmod (c p : list Qc) : list Qc * list Qc :=
  match c with
  | [] => ([], repeat 0 (length p - 1))
  | c0 :: c' =>
      let (q', r') := poly_divmod c' p in
      let xr := c0 :: r' in
      let top := last xr 0 in
      (top :: q', removelast (qsub xr (qscale top p)))
  end.

(** Removal of the trailing zero coefficients. *)
Fixpoint qstrip (l : list Qc) : list Qc :=
  match l with
  | [] => []
  | c :: l' =>
      match qstrip l' with
      | [] => if Qc_eq_dec c 0 then [] else [c]
      | r => c :: r
      end
  end.

(** The remainder of the division, as a polynomial: [[]] is zero. *)
Definition poly_rem (c p : list Qc) : list Qc := qstrip (snd (poly_divmod c p)).

Fixpoint qeval (p : list Qc) (x : Qc) : Qc :=
  match p with
  | [] => 0
  | c :: p' => c + x * qeval p' x
  end.

Definition monic (p : list Qc) : Prop := last p 0 = 1.

Local Open Scope Z_scope.

(** ** The minimal polynomial *)

(** The sample [self.u+[self(self.d+i) for i in range(self.d)]] handed to
    Berlekamp-Massey. *)
Definition bm_input (self : LinearRecurrenceSequence) : result (list Z) :=
  later <- mapM (fun i => term self (d self + i)) (range (d self)) ;;
  OK (u self ++ later).

(** [LinearRecurrenceSequence.minimal_polynomial].  The procedure
    [berlekamp_massey] of [sage.matrix.berlekamp_massey] is not part of the
    sources at hand and is a parameter; it works over the rationals. *)
Definition minimal_polynomial
    (berlekamp_massey : list Z -> result (list Qc))
    (self : LinearRecurrenceSequence) : result (list Qc) :=
  input <- bm_input self ;;
  berlekamp_massey input.

(** The sample as a sequence of rationals. *)
Definition sample_seq (l : list Z) : nat -> Qc := fun k => Z2Qc (nth k l 0).

(** The sample [l] satisfies the linear recurrence of the polynomial [p]:
    every window of [length p] consecutive terms is annihilated. *)
Definition satisfies (p : list Qc) (l : list Z) : Prop :=
  forall n, (n + length p <= length l)%nat -> (act p (sample_seq l) n = 0)%Qc.

(** [p] is the monic linear recurrence of least degree that the sample [l]
    satisfies. *)
Definition shortest_recurrence (l : list Z) (p : list Qc) : Prop :=
  monic p
  /\ satisfies p l
  /\ forall q, monic q -> satisfies q l -> (length p <= length q)%nat.

(** Modelled from the spec: the contract of [berlekamp_massey], which is not
    part of the sources at hand: for a finite sequence it reports the
    coefficients of the monic linear recurrence of least degree that the
    sequence satisfies.  The procedure works on the reversed polynomial and
    so leaves out the factors [x] of that recurrence (on [0, 0, 1, 1, 1, 1]
    it reports [x - 1], the recurrence being [x^3 - x^2]); the contract
    covers both readings: the reported [p], times some power [x^k], is the
    recurrence of least degree. *)
Definition berlekamp_massey_reports (l : list Z) (p : list Qc) : Prop :=
  exists k, shortest_recurrence l (repeat 0%Qc k ++ p).

(** A sequence that is constant from its third term on, [0, 0, 1, 1, ...],
    with [u_{n+3} = u_{n+2}].  Its recurrence of least degree is
    [x^3 - x^2]; without the factors [x] that is [x - 1]. *)
Definition eventually_one : LinearRecurrenceSequence :=
  mkLRS [0; 0; 1] [1; 0; 0] 3.

Definition eventually_one_polynomial : list Qc := map Z2Qc [-1; 1].

(** ** The textual description *)

(** Python's [str] on an integer: its decimal digits, after a minus sign
    when it is negative. *)
Definition str (z : Z) : string := NilZero.string_of_int (Z.to_int z).

(** [l[i]], where a negative index counts from the end. *)
Definition getitem (l : list Z) (i : Z) : result Z :=
  let j := if i <? 0 then i + len l else i in
  if (j <? 0) || (len l <=? j) then
    Raise (IndexError "list index out of range")
  else OK (nth (Z.to_nat j) l 0).

Definition newline : string := String (ascii_of_nat 10) EmptyString.

(** [LinearRecurrenceSequence.__repr__]. *)
Definition __repr__ (self : LinearRecurrenceSequence) : result string :=
  initial <-
    mapM (fun i => x <- getitem (u self) i ;;
                   OK ("u_" ++ str i ++ " = " ++ str x)%string)
         (range (d self)) ;;
  definition <-
    mapM (fun i => c <- getitem (a self) i ;;
                   OK (str c ++ "*u_{n+" ++ str (d self - i - 1) ++ "}")%string)
         (range (d self)) ;;
  OK ("Linear recurrence sequence defined by: u_{n+" ++ str (d self)
      ++ "} = " ++ String.concat " + " definition ++ ";" ++ newline
      ++ "With initial conditions: " ++ String.concat ", " initial)%string.

(** The characters [str] produces: the digits and the minus sign. *)
Definition is_numeric (c : ascii) : bool :=
  match c with
  | "0" | "1" | "2" | "3" | "4" | "5" | "6" | "7" | "8" | "9" | "-" => true
  | _ => false
  end%char.

Fixpoint numeric (s : string) : Prop :=
  match s with
  | EmptyString => True
  | String c s' => is_numeric c = true /\ numeric s'
  end.

(** A string that cannot continue a number: it is empty or starts with a
    character that is not numeric. *)
Definition stops (s : string) : Prop :=
  match s with
  | EmptyString => True
  | String c _ => is_numeric c = false
  end.

(** The items [pre i ++ str x ++ post i] of a list, numbered from [k]. *)
Fixpoint items (pre post : nat -> string) (k : nat) (xs : list Z)
  : list string :=
  match xs with
  | [] => []
  | x :: xs' =>
      (pre k ++ str x ++ post k)%string :: items pre post (S k) xs'
  end.

(** What [__repr__] writes before an initial term and after a coefficient. *)
Definition initial_pre (i : nat) : string :=
  ("u_" ++ str (Z.of_nat i) ++ " = ")%string.

Definition definition_post (order : Z) (i : nat) : string :=
  ("*u_{n+" ++ str (order - Z.of_nat i - 1) ++ "}")%string.

(** ** The examples of the docstrings *)

Example ex_init_trib : __init__ [0; 0; 1] [1; 1; 1] = OK tribonacci.
Proof. reflexivity. Qed.

Example ex_transformation_matrix :
  transformation_matrix (mkLRS [0; 1; 2] [-2; 1; 2] 3)
  = [[0; 1; 0]; [0; 0; 1]; [2; 1; -2]].
Proof. reflexivity. Qed.

Example ex_call_R :
  let R := mkLRS [0; 1; 2] [-2; 1; 2] 3 in
  term R 2 = OK 2
  /\ term R 100 = OK 845100400152152934331135470250
  /\ __call__ R 100 12 = OK 10.
Proof. vm_compute. repeat split. Qed.

Example ex_pentanacci :
  term (mkLRS [0; 0; 0; 0; 1] [1; 1; 1; 1; 1] 5) 100
  = OK 8196759338261258264777004033.
Proof. vm_compute. reflexivity. Qed.

Example ex_repr :
  __repr__ (mkLRS [0; 1; 2] [-2; 1; 2] 3)
  = OK ("Linear recurrence sequence defined by: "
        ++ "u_{n+3} = -2*u_{n+2} + 1*u_{n+1} + 2*u_{n+0};" ++ newline
        ++ "With initial conditions: u_0 = 0, u_1 = 1, u_2 = 2")%string.
Proof. vm_compute. reflexivity. Qed.

Example ex_characteristic_polynomial :
  characteristic_polynomial (mkLRS [0; 1; 2] [-2; 1; 2] 3) = OK [-2; -1; 2; 1].
Proof. reflexivity. Qed.

(** ** Construction *)

Lemma init_inv (u0 a0 : list Z) (self : LinearRecurrenceSequence) :
  __init__ u0 a0 = OK self ->
  self = mkLRS u0 a0 (len u0) /\ length u0 = length a0 /\ (3 <= length u0)%nat.
Proof.
  unfold __init__, len; cbn [d].
  destruct (Z.of_nat (length u0) =? Z.of_nat (length a0)) eqn:E; cbn [negb];
    [|discriminate].
  destruct (Z.of_nat (length u0) <? 3) eqn:E3.
  - destruct (Z.of_nat (length u0) <? 2); discriminate.
  - intros H; injection H as <-.
    apply Z.eqb_eq in E. apply Z.ltb_ge in E3. repeat split; lia.
Qed.

(** C6: construction raises the length-mismatch [ValueError] when the lengths
    differ, the order-below-2 [NotImplementedError] when the common length is
    below 2, the order-2 [NotImplementedError] when it is 2, and otherwise
    returns the object holding [u], [a] and [d = len(u)] as given. *)
Theorem init_contract (u0 a0 : list Z) :
  (len u0 <> len a0 ->
     __init__ u0 a0 = Raise (ValueError msg_length_mismatch)
     /\ kind_of (ValueError msg_length_mismatch) = LengthMismatch)
  /\ (len u0 = len a0 -> len u0 < 2 ->
     __init__ u0 a0 = Raise (NotImplementedError msg_order_lt_2)
     /\ kind_of (NotImplementedError msg_order_lt_2) = UnsupportedOrder)
  /\ (len u0 = len a0 -> len u0 = 2 ->
     __init__ u0 a0 = Raise (NotImplementedError msg_order_2)
     /\ kind_of (NotImplementedError msg_order_2) = UseBinarySpecialization)
  /\ (len u0 = len a0 -> 3 <= len u0 ->
     exists self, __init__ u0 a0 = OK self
       /\ u self = u0 /\ a self = a0 /\ d self = len u0).
Proof.
  unfold __init__; cbn [d].
  repeat split; try reflexivity.
  - apply Z.eqb_neq in H. now rewrite H.
  - rewrite H, Z.eqb_refl; cbn [negb].
    assert (E3 : (len a0 <? 3) = true) by (apply Z.ltb_lt; lia).
    assert (E2 : (len a0 <? 2) = true) by (apply Z.ltb_lt; lia).
    now rewrite E3, E2.
  - rewrite H, Z.eqb_refl; cbn [negb].
    assert (E3 : (len a0 <? 3) = true) by (apply Z.ltb_lt; lia).
    assert (E2 : (len a0 <? 2) = false) by (apply Z.ltb_ge; lia).
    now rewrite E3, E2.
  - intros H H3. exists (mkLRS u0 a0 (len u0)).
    rewrite H, Z.eqb_refl; cbn [negb].
    assert (E3 : (len a0 <? 3) = false) by (apply Z.ltb_ge; lia).
    now rewrite E3.
Qed.

Lemma init_contract_witness :
  __init__ [0; 1; 1; 2] [-2; 1; 2] = Raise (ValueError msg_length_mismatch)
  /\ __init__ [1] [2] = Raise (NotImplementedError msg_order_lt_2)
  /\ __init__ [0; 1] [1; 1] = Raise (NotImplementedError msg_order_2)
  /\ exists self, __init__ [0; 0; 1] [1; 1; 1] = OK self
       /\ u self = [0; 0; 1] /\ a self = [1; 1; 1] /\ d self = 3.
Proof.
  split; [|split; [|split]].
  - apply (init_contract [0; 1; 1; 2] [-2; 1; 2]). unfold len; simpl; lia.
  - apply (init_contract [1] [2]); unfold len; simpl; lia.
  - apply (init_contract [0; 1] [1; 1]); unfold len; simpl; lia.
  - apply (init_contract [0; 0; 1] [1; 1; 1]); unfold len; simpl; lia.
Defined.

(** C10: the length check comes first: whenever the lengths differ the
    length-mismatch [ValueError] is raised, whatever the order, and neither
    order error is. *)
Theorem init_length_first (u0 a0 : list Z) :
  len u0 <> len a0 ->
  __init__ u0 a0 = Raise (ValueError msg_length_mismatch)
  /\ __init__ u0 a0 <> Raise (NotImplementedError msg_order_lt_2)
  /\ __init__ u0 a0 <> Raise (NotImplementedError msg_order_2).
Proof.
  intros H. unfold __init__.
  apply Z.eqb_neq in H. rewrite H; cbn [negb].
  repeat split; discriminate.
Qed.

Lemma init_length_first_witness :
  __init__ [1] [1; 2] = Raise (ValueError msg_length_mismatch)
  /\ __init__ [1] [1; 2] <> Raise (NotImplementedError msg_order_lt_2)
  /\ __init__ [1] [1; 2] <> Raise (NotImplementedError msg_order_2).
Proof.
  apply (init_length_first [1] [1; 2]). unfold len; simpl; lia.
Defined.

(** C9: the hundredth term of the Tribonacci sequence. *)
Theorem tribonacci_100 :
  exists T, __init__ [0; 0; 1] [1; 1; 1] = OK T
    /\ term T 100 = OK 53324762928098149064722658.
Proof.
  exists tribonacci. split; vm_compute; reflexivity.
Qed.

(** ** Linear algebra over the integers *)

Section IntegerMatrices.

Lemma dot_nil_l (v : list Z) : dot ZZ [] v = 0.
Proof. reflexivity. Qed.

Lemma dot_nil_r (x : list Z) : dot ZZ x [] = 0.
Proof. now destruct x. Qed.

Lemma dot_cons (x y : Z) (xs ys : list Z) :
  dot ZZ (x :: xs) (y :: ys) = x * y + dot ZZ xs ys.
Proof. reflexivity. Qed.

Lemma dot_vadd (x y v : list Z) :
  length x = length y ->
  dot ZZ (vadd ZZ x y) v = dot ZZ x v + dot ZZ y v.
Proof.
  revert y v; induction x as [|x0 x IH]; intros [|y0 y] v Hlen;
    try discriminate; [reflexivity|].
  destruct v as [|v0 v]; [reflexivity|].
  change (vadd ZZ (x0 :: x) (y0 :: y)) with ((x0 + y0) :: vadd ZZ x y).
  rewrite !dot_cons, IH by (simpl in Hlen; lia). ring.
Qed.

Lemma dot_vscale (c : Z) (x v : list Z) :
  dot ZZ (vscale ZZ c x) v = c * dot ZZ x v.
Proof.
  revert v; induction x as [|x0 x IH]; intros [|v0 v];
    try (cbn; ring).
  change (vscale ZZ c (x0 :: x)) with ((c * x0) :: vscale ZZ c x).
  rewrite !dot_cons, IH. ring.
Qed.

Lemma dot_zeros (n : nat) (v : list Z) : dot ZZ (repeat 0 n) v = 0.
Proof.
  revert v; induction n as [|n IH]; intros [|v0 v]; try reflexivity.
  change (repeat 0 (S n)) with (0 :: repeat 0 n).
  rewrite dot_cons, IH. ring.
Qed.

Lemma length_vadd (R : ring) (x y : list Z) :
  length x = length y -> length (vadd R x y) = length x.
Proof.
  intros H. unfold vadd. rewrite length_map, length_combine. lia.
Qed.

Lemma length_vscale (R : ring) (c : Z) (x : list Z) :
  length (vscale R c x) = length x.
Proof. apply length_map. Qed.

Lemma length_lincomb (R : ring) (n : nat) (r : list Z) (B : matrix) :
  Forall (fun row => length row = n) B ->
  length (lincomb R n r B) = n.
Proof.
  intros HB. revert r; induction HB as [|b B Hb HB IH]; intros r.
  - unfold lincomb. rewrite combine_nil. apply repeat_length.
  - destruct r as [|c r]; [apply repeat_length|].
    change (lincomb R n (c :: r) (b :: B))
      with (vadd R (vscale R c b) (lincomb R n r B)).
    rewrite length_vadd; rewrite length_vscale; [assumption|].
    now rewrite IH.
Qed.

Lemma dot_lincomb (n : nat) (r : list Z) (B : matrix) (v : list Z) :
  Forall (fun row => length row = n) B ->
  dot ZZ (lincomb ZZ n r B) v = dot ZZ r (mat_vec ZZ B v).
Proof.
  intros HB. revert r; induction HB as [|b B Hb HB IH]; intros r.
  - unfold lincomb. rewrite combine_nil. cbn [fold_right mat_vec map].
    now rewrite dot_zeros, dot_nil_r.
  - destruct r as [|c r]; [apply dot_zeros|].
    change (lincomb ZZ n (c :: r) (b :: B))
      with (vadd ZZ (vscale ZZ c b) (lincomb ZZ n r B)).
    change (mat_vec ZZ (b :: B) v) with (dot ZZ b v :: mat_vec ZZ B v).
    rewrite dot_vadd, dot_vscale, dot_cons, IH; [reflexivity|].
    rewrite length_vscale, length_lincomb; auto.
Qed.

Lemma ncols_square (n : nat) (M : matrix) : square n M -> ncols M = n.
Proof.
  intros [Hl HM]. destruct M as [|row M]; [assumption|].
  now inversion HM.
Qed.

Lemma square_mat_mul (R : ring) (n : nat) (A B : matrix) :
  square n A -> square n B -> square n (mat_mul R A B).
Proof.
  intros [HlA HA] HB. pose proof (ncols_square HB) as Hc.
  destruct HB as [HlB HB]. split.
  - unfold mat_mul. now rewrite length_map.
  - unfold mat_mul. apply Forall_map, Forall_forall. intros row _.
    rewrite Hc. now apply length_lincomb.
Qed.

Lemma square_mat_pow_pos (R : ring) (n : nat) (M : matrix) (p : positive) :
  square n M -> square n (mat_pow_pos R M p).
Proof.
  intros HM. induction p as [p IH|p IH|]; cbn [mat_pow_pos];
    auto using square_mat_mul.
Qed.

Lemma mat_vec_mul (n : nat) (A B : matrix) (v : list Z) :
  square n B ->
  mat_vec ZZ (mat_mul ZZ A B) v = mat_vec ZZ A (mat_vec ZZ B v).
Proof.
  intros HB. unfold mat_mul, mat_vec at 1 2. rewrite map_map.
  apply map_ext. intros row.
  rewrite (ncols_square HB). apply dot_lincomb, HB.
Qed.

(** Repeated squaring computes the iterated action of the matrix. *)
Lemma mat_pow_pos_vec (n : nat) (M : matrix) (p : positive) (v : list Z) :
  square n M ->
  mat_vec ZZ (mat_pow_pos ZZ M p) v = Nat.iter (Pos.to_nat p) (mat_vec ZZ M) v.
Proof.
  intros HM. revert v; induction p as [p IH|p IH|]; intros v;
    cbn [mat_pow_pos].
  - pose proof (square_mat_pow_pos ZZ p HM) as HS.
    rewrite (mat_vec_mul _ _ (square_mat_mul ZZ HS HS)).
    rewrite (mat_vec_mul _ _ HS), !IH.
    rewrite Pos2Nat.inj_xI, <- Nat.iter_add.
    replace (2 * Pos.to_nat p)%nat with (Pos.to_nat p + Pos.to_nat p)%nat
      by lia.
    reflexivity.
  - pose proof (square_mat_pow_pos ZZ p HM) as HS.
    rewrite (mat_vec_mul _ _ HS), !IH.
    rewrite Pos2Nat.inj_xO, <- Nat.iter_add. f_equal. lia.
  - reflexivity.
Qed.

(** A row with a single one, at column [k]. *)
Lemma dot_unit (k : nat) (w : list Z) (s : nat) :
  dot ZZ (map (fun j => if Nat.eqb j k then 1 else 0) (seq s (length w))) w
  = if ((s <=? k) && (k <? s + length w))%nat then nth (k - s) w 0 else 0.
Proof.
  revert s; induction w as [|w0 w IH]; intros s.
  - cbn. destruct (_ && _); [now destruct (k - s)%nat|reflexivity].
  - cbn [length seq map]. rewrite dot_cons, IH.
    destruct (Nat.eqb_spec s k) as [->|Hne].
    + replace (k - k)%nat with O by lia. cbn [nth].
      replace ((S k <=? k)%nat) with false by (symmetry; apply Nat.leb_gt; lia).
      replace ((k <=? k)%nat) with true by (symmetry; apply Nat.leb_le; lia).
      replace ((k <? k + S (length w))%nat) with true
        by (symmetry; apply Nat.ltb_lt; lia).
      cbn [andb]. ring.
    + destruct (Nat.leb_spec (S s) k) as [Hle|Hgt].
      * replace ((s <=? k)%nat) with true by (symmetry; apply Nat.leb_le; lia).
        replace (k <? s + S (length w))%nat with (k <? S s + length w)%nat
          by (f_equal; lia).
        cbn [andb]. destruct (k <? S s + length w)%nat; [|ring].
        replace (k - s)%nat with (S (k - S s)) by lia. cbn [nth]. ring.
      * cbn [andb].
        replace ((s <=? k)%nat) with false by (symmetry; apply Nat.leb_gt; lia).
        cbn [andb]. ring.
Qed.

Lemma map_nth_seq (w : list Z) (s : nat) :
  map (fun i => nth (s + i) w 0) (seq 0 (length w - s)) = skipn s w.
Proof.
  revert s; induction w as [|w0 w IH]; intros s.
  - now destruct s.
  - destruct s as [|s].
    + cbn [length Nat.sub seq map skipn Nat.add nth]. f_equal.
      rewrite <- seq_shift, map_map.
      specialize (IH O). cbn [skipn] in IH. rewrite Nat.sub_0_r in IH.
      exact IH.
    + cbn [length Nat.sub skipn]. rewrite <- IH.
      apply map_ext. intros i. reflexivity.
Qed.

Lemma mat_vec_identity (v : list Z) :
  mat_vec ZZ (identity_matrix ZZ (length v)) v = v.
Proof.
  unfold mat_vec, identity_matrix. rewrite map_map.
  rewrite (map_ext _ (fun i => nth (0 + i) v 0)).
  - pose proof (map_nth_seq v 0) as H. rewrite Nat.sub_0_r in H. exact H.
  - intros i.
    rewrite (map_ext _ (fun j => if Nat.eqb j i then 1 else 0))
      by (intros j; cbn; now rewrite Nat.eqb_sym).
    rewrite dot_unit. cbn [Nat.add Nat.leb andb].
    rewrite Nat.sub_0_r.
    destruct (Nat.ltb_spec i (length v)); [reflexivity|].
    symmetry; apply nth_overflow; lia.
Qed.

End IntegerMatrices.

(** ** Finite sums *)

Lemma zsum_ext (f g : nat -> Z) (n : nat) :
  (forall i, (i < n)%nat -> f i = g i) -> zsum f n = zsum g n.
Proof.
  induction n as [|n IH]; intros H; [reflexivity|].
  cbn [zsum]. rewrite IH, H by auto with arith. reflexivity.
Qed.

Lemma zsum_shift (f : nat -> Z) (n : nat) :
  zsum f (S n) = f O + zsum (fun i => f (S i)) n.
Proof.
  induction n as [|n IH]; [cbn; ring|].
  change (zsum f (S (S n))) with (zsum f (S n) + f (S n)).
  rewrite IH. cbn [zsum]. ring.
Qed.

Lemma zsum_rev (f : nat -> Z) (n : nat) :
  zsum f n = zsum (fun i => f (n - 1 - i)%nat) n.
Proof.
  induction n as [|n IH]; [reflexivity|].
  change (zsum f (S n)) with (zsum f n + f n).
  rewrite zsum_shift, IH.
  replace (S n - 1 - 0)%nat with n by lia.
  rewrite (zsum_ext (fun i => f (S n - 1 - S i)%nat)
                    (fun i => f (n - 1 - i)%nat)).
  - ring.
  - intros i _. f_equal. lia.
Qed.

Lemma dot_zsum (x y : list Z) :
  length x = length y ->
  dot ZZ x y = zsum (fun j => nth j x 0 * nth j y 0) (length x).
Proof.
  revert y; induction x as [|x0 x IH]; intros [|y0 y] H; try discriminate;
    [reflexivity|].
  cbn [length]. rewrite zsum_shift, dot_cons, IH by (simpl in H; lia).
  reflexivity.
Qed.

(** ** The companion matrix advances the window of the sequence *)

Section Companion.

Variable coeffs : list Z.
Hypothesis order_pos : (1 <= length coeffs)%nat.

Let F : matrix := companion_matrix (map Z.opp (rev coeffs) ++ [1]).

Lemma companion_unfold :
  F = map (fun i => map (fun j => if Nat.eqb j (S i) then 1 else 0)
                        (seq 0 (length coeffs)))
          (seq 0 (length coeffs - 1))
      ++ [rev coeffs].
Proof.
  unfold F, companion_matrix.
  rewrite length_app, length_map, length_rev. cbn [length].
  replace (length coeffs + 1 - 1)%nat with (length coeffs) by lia.
  destruct (length coeffs) as [|n'] eqn:E; [lia|].
  rewrite <- E, firstn_app, length_map, length_rev, Nat.sub_diag.
  cbn [firstn]. rewrite app_nil_r.
  rewrite <- (length_rev coeffs), <- (length_map Z.opp (rev coeffs)).
  rewrite firstn_all.
  rewrite map_map, (map_ext (fun x => - - x) (fun x => x))
    by apply Z.opp_involutive.
  rewrite map_id, length_map, length_rev, E.
  replace (S n' - 1)%nat with n' by lia. reflexivity.
Qed.

Lemma companion_square : square (length coeffs) F.
Proof.
  rewrite companion_unfold. split.
  - rewrite length_app, length_map, length_seq. cbn [length]. lia.
  - apply Forall_app. split.
    + apply Forall_map, Forall_forall. intros i _.
      now rewrite length_map, length_seq.
    + constructor; [apply length_rev|constructor].
Qed.

Lemma companion_shift (w : list Z) :
  length w = length coeffs ->
  mat_vec ZZ F w = tl w ++ [dot ZZ (rev coeffs) w].
Proof.
  intros Hw. rewrite companion_unfold. unfold mat_vec.
  rewrite map_app, map_map. cbn [map]. f_equal.
  rewrite <- Hw.
  rewrite (map_ext _ (fun i => nth (1 + i) w 0)).
  - now rewrite map_nth_seq.
  - intros i. rewrite dot_unit. cbn [Nat.leb andb Nat.add].
    rewrite Nat.sub_0_r.
    destruct (Nat.ltb_spec (S i) (length w)); [reflexivity|].
    symmetry; apply nth_overflow; lia.
Qed.

Variable init : list Z.
Hypothesis init_length : length init = length coeffs.

Lemma length_window (k : nat) : length (window coeffs init k) = length coeffs.
Proof.
  induction k as [|k IH]; [exact init_length|].
  unfold window in *. rewrite Nat.iter_succ. unfold mat_vec at 1.
  rewrite length_map. apply companion_square.
Qed.

Lemma window_step (k : nat) :
  window coeffs init (S k)
  = tl (window coeffs init k) ++ [dot ZZ (rev coeffs) (window coeffs init k)].
Proof.
  unfold window. cbn [Nat.iter]. apply companion_shift, length_window.
Qed.

Lemma nth_window (i k : nat) :
  (i < length coeffs)%nat ->
  nth i (window coeffs init k) 0 = term_value coeffs init (k + i).
Proof.
  revert k; induction i as [|i IH]; intros k Hi.
  - rewrite Nat.add_0_r. unfold term_value. now destruct (window coeffs init k).
  - replace (k + S i)%nat with (S k + i)%nat by lia.
    rewrite <- IH by lia. rewrite window_step.
    pose proof (length_window k) as Hl.
    destruct (window coeffs init k) as [|w0 w]; [simpl in Hl; lia|].
    cbn [tl nth]. rewrite app_nth1; [reflexivity|].
    simpl in Hl. lia.
Qed.

(** The next term is the bottom row of the matrix applied to the window. *)
Lemma term_value_dot (k : nat) :
  term_value coeffs init (k + length coeffs)
  = dot ZZ (rev coeffs) (window coeffs init k).
Proof.
  pose proof (length_window k) as Hl.
  replace (k + length coeffs)%nat with (S k + (length coeffs - 1))%nat by lia.
  rewrite <- nth_window by lia. rewrite window_step.
  destruct (window coeffs init k) as [|w0 w] eqn:E; [simpl in Hl; lia|].
  cbn [tl].
  rewrite app_nth2 by (simpl in Hl; lia).
  replace (length coeffs - 1 - length w)%nat with O by (simpl in Hl; lia).
  reflexivity.
Qed.

Lemma window_values (k : nat) :
  window coeffs init k = map (term_value coeffs init) (seq k (length coeffs)).
Proof.
  apply (nth_ext _ _ 0 (term_value coeffs init 0)).
  - now rewrite length_window, length_map, length_seq.
  - intros i Hi. rewrite length_window in Hi.
    rewrite map_nth, seq_nth by assumption. now apply nth_window.
Qed.

(** The terms satisfy the recurrence. *)
Lemma term_value_recurrence (k : nat) :
  term_value coeffs init (k + length coeffs)
  = zsum (fun i => nth i coeffs 0
                   * term_value coeffs init (k + (length coeffs - 1 - i)))
         (length coeffs).
Proof.
  rewrite term_value_dot.
  rewrite dot_zsum by (now rewrite length_rev, length_window).
  rewrite length_rev, zsum_rev. apply zsum_ext. intros i Hi.
  rewrite rev_nth by lia. rewrite nth_window by lia.
  f_equal. f_equal. lia.
Qed.

Lemma term_value_init (i : nat) :
  (i < length coeffs)%nat -> term_value coeffs init i = nth i init 0.
Proof.
  intros Hi. exact (eq_sym (@nth_window i 0 Hi)).
Qed.

End Companion.

Arguments companion_square [coeffs] _.
Arguments companion_shift [coeffs] _ [w] _.
Arguments length_window [coeffs] _ [init] _ k.
Arguments window_step [coeffs] _ [init] _ k.
Arguments nth_window [coeffs] _ [init] _ [i] k _.
Arguments term_value_recurrence [coeffs] _ [init] _ k.
Arguments term_value_dot [coeffs] _ [init] _ k.
Arguments window_values [coeffs] _ [init] _ k.
Arguments term_value_init [coeffs] _ [init] _ [i] _.

(** ** Term evaluation without reduction *)

Lemma change_ring_ZZ (M : matrix) : change_ring ZZ M = M.
Proof.
  unfold change_ring. rewrite <- (map_id M) at 2. apply map_ext.
  intros row. apply map_id.
Qed.

Lemma vector_ZZ (l : list Z) : vector ZZ l = l.
Proof. apply map_id. Qed.

Lemma quotient_one (x : Z) : quotient x 1 = OK x.
Proof. unfold quotient. now rewrite Z.mod_1_r, Z.div_1_r. Qed.

Section Evaluation.

Variables (u0 a0 : list Z) (self : LinearRecurrenceSequence).
Hypothesis Hvalid : __init__ u0 a0 = OK self.

Lemma valid_lengths :
  length (u self) = length (a self) /\ (3 <= length (a self))%nat
  /\ d self = Z.of_nat (length (a self)).
Proof.
  destruct (init_inv _ _ Hvalid) as (-> & Hl & H3). cbn [u a d].
  unfold len. rewrite <- Hl. auto.
Qed.

(** The unreduced call returns the head of the window, for every index
    from zero on. *)
Lemma term_value_correct (k : nat) :
  term self (Z.of_nat k) = OK (value self k).
Proof.
  destruct valid_lengths as (Hl & H3 & _).
  assert (Hpos : (1 <= length (a self))%nat) by lia.
  pose proof (companion_square Hpos) as Hsq.
  unfold term, __call__, charpoly_list. cbn [Integers Z.eqb bind].
  rewrite change_ring_ZZ, vector_ZZ.
  assert (Hw : forall P, mat_vec ZZ P (u self) = window (a self) (u self) k ->
                         (x <- getitem0 (mat_vec ZZ P (u self)) ;; quotient x 1)
                         = OK (value self k)).
  { intros P ->. unfold value, term_value.
    pose proof (length_window Hpos Hl k) as Hlen.
    destruct (window (a self) (u self) k); [simpl in Hlen; lia|].
    cbn [getitem0 bind hd]. apply quotient_one. }
  destruct k as [|k].
  - cbn [Z.of_nat matrix_power bind fst snd]. apply Hw.
    destruct Hsq as [-> _]. rewrite <- Hl. apply mat_vec_identity.
  - cbn [Z.of_nat matrix_power bind fst snd]. apply Hw.
    rewrite (mat_pow_pos_vec _ _ Hsq), SuccNat2Pos.id_succ. reflexivity.
Qed.

Lemma term_total (n : Z) :
  0 <= n -> term self n = OK (value self (Z.to_nat n)).
Proof.
  intros Hn. rewrite <- (Z2Nat.id n) at 1 by assumption.
  apply term_value_correct.
Qed.

End Evaluation.

Arguments valid_lengths [u0 a0 self] _.
Arguments term_value_correct [u0 a0 self] _ k.
Arguments term_total [u0 a0 self] _ [n] _.

(** C1: from index [d] on, the unreduced terms satisfy the defining
    recurrence: every index from zero on has a term [t k], and
    [t n = a_0 * t (n-1) + a_1 * t (n-2) + ... + a_{d-1} * t (n-d)]. *)
Theorem term_recurrence (u0 a0 : list Z) (self : LinearRecurrenceSequence)
    (n : Z) :
  __init__ u0 a0 = OK self ->
  d self <= n ->
  exists t : Z -> Z,
    (forall k, 0 <= k -> term self k = OK (t k))
    /\ t n = zsum (fun i => nth i (a self) 0 * t (n - 1 - Z.of_nat i))
                  (Z.to_nat (d self)).
Proof.
  intros Hvalid Hn.
  destruct (valid_lengths Hvalid) as (Hl & H3 & Hd).
  exists (fun k => value self (Z.to_nat k)). split.
  - intros k Hk. now apply (term_total Hvalid).
  - rewrite Hd, Nat2Z.id in *.
    assert (Hpos : (1 <= length (a self))%nat) by lia.
    replace (Z.to_nat n) with (Z.to_nat (n - d self) + length (a self))%nat
      by lia.
    unfold value. rewrite (term_value_recurrence Hpos Hl).
    apply zsum_ext. intros i Hi. f_equal. f_equal. lia.
Qed.

Lemma term_recurrence_witness :
  exists t : Z -> Z,
    (forall k, 0 <= k -> term tribonacci k = OK (t k))
    /\ t 7 = zsum (fun i => nth i [1; 1; 1] 0 * t (7 - 1 - Z.of_nat i)) 3.
Proof.
  apply (@term_recurrence [0; 0; 1] [1; 1; 1] tribonacci 7).
  - reflexivity.
  - simpl; lia.
Defined.

(** C2: the first [d] unreduced terms are the stored initial terms,
    [term(i) = u[i]] for [0 <= i < d]; in particular [term(0)] is [u_0]. *)
Theorem term_initial (u0 a0 : list Z) (self : LinearRecurrenceSequence) :
  __init__ u0 a0 = OK self ->
  (forall i, 0 <= i < d self ->
     exists x, nth_error (u self) (Z.to_nat i) = Some x /\ term self i = OK x)
  /\ (exists x rest, u self = x :: rest /\ term self 0 = OK x).
Proof.
  intros Hvalid.
  destruct (valid_lengths Hvalid) as (Hl & H3 & Hd).
  assert (Hpos : (1 <= length (a self))%nat) by lia.
  assert (Hi : forall i, 0 <= i < d self ->
            nth_error (u self) (Z.to_nat i) = Some (nth (Z.to_nat i) (u self) 0)
            /\ term self i = OK (nth (Z.to_nat i) (u self) 0)).
  { intros i Hi. split.
    - apply nth_error_nth'. lia.
    - rewrite (term_total Hvalid) by lia. unfold value.
      rewrite (term_value_init Hpos Hl) by lia. reflexivity. }
  split.
  - intros i Hr. eexists. apply (Hi i Hr).
  - destruct (Hi 0) as [_ H0]; [lia|].
    destruct (u self) as [|x rest] eqn:E; [simpl in Hl; lia|].
    exists x, rest. split; [reflexivity|]. exact H0.
Qed.

Lemma term_initial_witness :
  (forall i, 0 <= i < 3 ->
     exists x, nth_error [0; 0; 1] (Z.to_nat i) = Some x
               /\ term tribonacci i = OK x)
  /\ (exists x rest, [0; 0; 1] = x :: rest /\ term tribonacci 0 = OK x).
Proof.
  apply (@term_initial [0; 0; 1] [1; 1; 1] tribonacci). reflexivity.
Defined.

(** ** Reduction is a ring homomorphism through the whole evaluation *)

Section Reduction.

Variable R : ring.

Lemma coerce_idem (x : Z) : coerce R (coerce R x) = coerce R x.
Proof. destruct R; cbn; [reflexivity|apply Zmod_mod]. Qed.

Lemma radd_coerce (x y : Z) :
  radd R (coerce R x) (coerce R y) = coerce R (radd ZZ x y).
Proof. destruct R; cbn; [reflexivity|symmetry; apply Zplus_mod]. Qed.

Lemma rmul_coerce (x y : Z) :
  rmul R (coerce R x) (coerce R y) = coerce R (rmul ZZ x y).
Proof. destruct R; cbn; [reflexivity|symmetry; apply Zmult_mod]. Qed.

Lemma dot_coerce (x y : list Z) :
  dot R (map (coerce R) x) (map (coerce R) y) = coerce R (dot ZZ x y).
Proof.
  revert y; induction x as [|x0 x IH]; intros [|y0 y]; try reflexivity.
  change (dot R (map (coerce R) (x0 :: x)) (map (coerce R) (y0 :: y)))
    with (radd R (rmul R (coerce R x0) (coerce R y0))
                 (dot R (map (coerce R) x) (map (coerce R) y))).
  rewrite IH, rmul_coerce, radd_coerce. reflexivity.
Qed.

Lemma mat_vec_coerce (M : matrix) (v : list Z) :
  mat_vec R (change_ring R M) (vector R v) = vector R (mat_vec ZZ M v).
Proof.
  unfold mat_vec, change_ring, vector. rewrite !map_map.
  apply map_ext. intros row. apply dot_coerce.
Qed.

Lemma vadd_coerce (x y : list Z) :
  vadd R (map (coerce R) x) (map (coerce R) y) = map (coerce R) (vadd ZZ x y).
Proof.
  revert y; induction x as [|x0 x IH]; intros [|y0 y]; try reflexivity.
  change (vadd R (map (coerce R) (x0 :: x)) (map (coerce R) (y0 :: y)))
    with (radd R (coerce R x0) (coerce R y0)
          :: vadd R (map (coerce R) x) (map (coerce R) y)).
  rewrite IH, radd_coerce. reflexivity.
Qed.

Lemma vscale_coerce (c : Z) (x : list Z) :
  vscale R (coerce R c) (map (coerce R) x) = map (coerce R) (vscale ZZ c x).
Proof.
  unfold vscale. rewrite !map_map. apply map_ext. intros y.
  apply rmul_coerce.
Qed.

Lemma lincomb_coerce (n : nat) (r : list Z) (B : matrix) :
  lincomb R n (map (coerce R) r) (change_ring R B)
  = map (coerce R) (lincomb ZZ n r B).
Proof.
  revert B; induction r as [|c r IH]; intros B.
  - unfold lincomb. cbn [map combine fold_right].
    now rewrite map_repeat.
  - destruct B as [|b B].
    + unfold lincomb. cbn [map change_ring combine fold_right].
      now rewrite map_repeat.
    + change (lincomb R n (map (coerce R) (c :: r)) (change_ring R (b :: B)))
        with (vadd R (vscale R (coerce R c) (map (coerce R) b))
                     (lincomb R n (map (coerce R) r) (change_ring R B))).
      rewrite IH, vscale_coerce, vadd_coerce. reflexivity.
Qed.

Lemma ncols_change_ring (M : matrix) : ncols (change_ring R M) = ncols M.
Proof. destruct M as [|row M]; [reflexivity|apply length_map]. Qed.

Lemma mat_mul_coerce (A B : matrix) :
  mat_mul R (change_ring R A) (change_ring R B)
  = change_ring R (mat_mul ZZ A B).
Proof.
  unfold mat_mul. rewrite ncols_change_ring.
  change (change_ring R A) with (map (map (coerce R)) A).
  change (change_ring R (map (fun row => lincomb ZZ (ncols B) row B) A))
    with (map (map (coerce R)) (map (fun row => lincomb ZZ (ncols B) row B) A)).
  rewrite !map_map.
  apply map_ext. intros row. apply lincomb_coerce.
Qed.

Lemma mat_pow_pos_coerce (M : matrix) (p : positive) :
  mat_pow_pos R (change_ring R M) p = change_ring R (mat_pow_pos ZZ M p).
Proof.
  induction p as [p IH|p IH|]; cbn [mat_pow_pos];
    rewrite ?IH, ?mat_mul_coerce; reflexivity.
Qed.

Lemma identity_matrix_coerce (n : nat) :
  identity_matrix R n = change_ring R (identity_matrix ZZ n).
Proof.
  unfold identity_matrix, change_ring. rewrite map_map.
  apply map_ext. intros i. rewrite map_map. apply map_ext. intros j.
  now destruct (Nat.eqb i j).
Qed.

Lemma matrix_power_coerce (M : matrix) (n : Z) :
  0 <= n ->
  matrix_power R (change_ring R M) n
  = P <- matrix_power ZZ M n ;; OK (change_ring R (fst P), snd P).
Proof.
  intros Hn. destruct n as [|p|p]; [| |lia]; cbn [matrix_power bind fst snd].
  - unfold change_ring at 1. now rewrite length_map, identity_matrix_coerce.
  - now rewrite mat_pow_pos_coerce.
Qed.

Lemma getitem0_coerce (l : list Z) :
  getitem0 (vector R l) = x <- getitem0 l ;; OK (coerce R x).
Proof. now destruct l. Qed.

End Reduction.

Lemma Integers_nonzero (m : Z) :
  m <> 0 -> Integers m = OK (Zmod (Z.abs m)).
Proof.
  intros Hm. unfold Integers.
  now replace (m =? 0) with false by (symmetry; apply Z.eqb_neq; lia).
Qed.

Lemma Integers_positive (m : Z) : 0 < m -> Integers m = OK (Zmod m).
Proof.
  intros Hm. rewrite Integers_nonzero by lia. now rewrite Z.abs_eq by lia.
Qed.

(** From index zero on, the call over any ring is the coercion of the call
    over the integers. *)
Lemma call_reduced (self : LinearRecurrenceSequence) (n modulus : Z) :
  0 <= n ->
  __call__ self n modulus
  = R <- Integers modulus ;; x <- term self n ;; OK (coerce R x).
Proof.
  intros Hn. unfold term, __call__.
  destruct (Integers modulus) as [R|e|q]; [|reflexivity|reflexivity].
  cbn [bind Integers Z.eqb]. rewrite (change_ring_ZZ (companion_matrix _)).
  rewrite vector_ZZ, matrix_power_coerce by exact Hn.
  destruct n as [|p|p]; [| |lia]; cbn [matrix_power bind fst snd];
    rewrite mat_vec_coerce, getitem0_coerce;
    (destruct (getitem0 _) as [x|e|q]; [|reflexivity|reflexivity]);
    cbn [bind]; now rewrite !quotient_one.
Qed.

(** C3: for a positive modulus [m] and an index from zero on, the reduced
    call returns the unreduced term modulo [m]; with modulus [1] it
    returns [0]. *)
Theorem call_mod (u0 a0 : list Z) (self : LinearRecurrenceSequence)
    (n m : Z) :
  __init__ u0 a0 = OK self ->
  0 <= n ->
  0 < m ->
  (exists x, term self n = OK x /\ __call__ self n m = OK (x mod m))
  /\ __call__ self n 1 = OK 0.
Proof.
  intros Hvalid Hn Hm.
  assert (H : forall m', 0 < m' ->
            __call__ self n m' = OK (value self (Z.to_nat n) mod m')).
  { intros m' Hm'.
    rewrite call_reduced, (term_total Hvalid Hn), Integers_positive
      by assumption.
    reflexivity. }
  split.
  - exists (value self (Z.to_nat n)). split.
    + apply (term_total Hvalid Hn).
    + now apply H.
  - rewrite H by lia. now rewrite Z.mod_1_r.
Qed.

Lemma call_mod_witness :
  (exists x, term (mkLRS [0; 1; 2] [-2; 1; 2] 3) 100 = OK x
             /\ __call__ (mkLRS [0; 1; 2] [-2; 1; 2] 3) 100 12 = OK (x mod 12))
  /\ __call__ (mkLRS [0; 1; 2] [-2; 1; 2] 3) 100 1 = OK 0.
Proof.
  apply (@call_mod [0; 1; 2] [-2; 1; 2] (mkLRS [0; 1; 2] [-2; 1; 2] 3) 100 12).
  - reflexivity.
  - lia.
  - lia.
Defined.

(** ** The characteristic polynomial *)

Lemma strip_app_nonzero (l : list Z) (c : Z) :
  c <> 0 -> strip (l ++ [c]) = l ++ [c].
Proof.
  intros Hc. induction l as [|x l IH].
  - cbn. now destruct (Z.eqb_spec c 0).
  - cbn [app strip]. rewrite IH. now destruct l.
Qed.

Lemma eval_app (p q : list Z) (x : Z) :
  eval (p ++ q) x = eval p x + x ^ len p * eval q x.
Proof.
  induction p as [|c p IH].
  - cbn. destruct (eval q x); reflexivity.
  - cbn [app eval]. rewrite IH. unfold len. cbn [length].
    rewrite Nat2Z.inj_succ, Z.pow_succ_r by lia. ring.
Qed.

Lemma eval_opp (p : list Z) (x : Z) : eval (map Z.opp p) x = - eval p x.
Proof.
  induction p as [|c p IH]; [reflexivity|].
  cbn [map eval]. rewrite IH. ring.
Qed.

Lemma eval_zsum (p : list Z) (x : Z) :
  eval p x = zsum (fun j => nth j p 0 * x ^ Z.of_nat j) (length p).
Proof.
  induction p as [|c p IH]; [reflexivity|].
  cbn [length]. rewrite zsum_shift. cbn [eval nth]. rewrite IH.
  change (x ^ Z.of_nat 0) with 1.
  assert (Hs : forall n f g, (forall i, g i = x * f i) ->
                 zsum g n = x * zsum f n).
  { intros n f g Hfg. induction n as [|n IHn]; [cbn; ring|].
    cbn [zsum]. rewrite IHn, Hfg. ring. }
  rewrite (Hs _ (fun j => nth j p 0 * x ^ Z.of_nat j)
              (fun i => nth i p 0 * x ^ Z.of_nat (S i))).
  - ring.
  - intros i. rewrite Nat2Z.inj_succ, Z.pow_succ_r by lia. ring.
Qed.

Lemma eval_rev (l : list Z) (x : Z) :
  eval (rev l) x
  = zsum (fun i => nth i l 0 * x ^ (len l - 1 - Z.of_nat i)) (length l).
Proof.
  rewrite eval_zsum, length_rev, zsum_rev. apply zsum_ext. intros i Hi.
  rewrite rev_nth by lia. f_equal.
  - f_equal. lia.
  - f_equal. unfold len. lia.
Qed.

(** C4: the characteristic polynomial is returned without failure; it has
    degree [d] and leading coefficient [1], its coefficient at [x^(d-1-i)]
    is [-a_i], so that it is [x^d - a_0 x^(d-1) - ... - a_(d-1)], and it is
    the same for every object built on the same [a]. *)
Theorem characteristic_polynomial_spec (u0 a0 : list Z)
    (self : LinearRecurrenceSequence) :
  __init__ u0 a0 = OK self ->
  exists p,
    characteristic_polynomial self = OK p
    /\ degree p = d self
    /\ leading_coefficient p = 1
    /\ coefficient p (d self) = 1
    /\ (forall i, 0 <= i < d self ->
          coefficient p (d self - 1 - i) = - nth (Z.to_nat i) (a self) 0)
    /\ (forall x,
          eval p x
          = x ^ d self
            - zsum (fun i => nth i (a self) 0 * x ^ (d self - 1 - Z.of_nat i))
                   (Z.to_nat (d self)))
    /\ (forall u1 other,
          __init__ u1 a0 = OK other -> characteristic_polynomial other = OK p).
Proof.
  intros Hvalid.
  destruct (valid_lengths Hvalid) as (Hl & H3 & Hd).
  assert (Ha : a self = a0)
    by (destruct (init_inv _ _ Hvalid) as (-> & _); reflexivity).
  assert (Hp : forall s, characteristic_polynomial s
                         = OK (map Z.opp (rev (a s)) ++ [1])).
  { intros s. unfold characteristic_polynomial, PolynomialRing, charpoly_list.
    cbn [Integers Z.eqb bind]. fold (vector ZZ (map Z.opp (rev (a s)) ++ [1])).
    rewrite vector_ZZ, strip_app_nonzero by lia. reflexivity. }
  exists (map Z.opp (rev (a self)) ++ [1]).
  repeat split.
  - apply Hp.
  - unfold degree, len. rewrite length_app, length_map, length_rev.
    cbn [length]. lia.
  - unfold leading_coefficient. apply last_last.
  - unfold coefficient. rewrite Hd.
    replace (Z.of_nat (length (a self)) <? 0) with false
      by (symmetry; apply Z.ltb_ge; lia).
    rewrite Nat2Z.id, app_nth2; rewrite length_map, length_rev; [|lia].
    now rewrite Nat.sub_diag.
  - intros i Hi. unfold coefficient.
    replace (d self - 1 - i <? 0) with false by (symmetry; apply Z.ltb_ge; lia).
    rewrite app_nth1 by (rewrite length_map, length_rev; lia).
    rewrite (nth_indep _ 0 (- 0)) by (rewrite length_map, length_rev; lia).
    rewrite map_nth, rev_nth by lia. f_equal. f_equal. lia.
  - intros x. rewrite eval_app, eval_opp, eval_rev.
    unfold len. rewrite length_map, length_rev, Hd, Nat2Z.id.
    cbn [eval]. ring.
  - intros u1 other Hother.
    assert (Ho : a other = a0)
      by (destruct (init_inv _ _ Hother) as (-> & _); reflexivity).
    rewrite Hp, Ho, Ha. reflexivity.
Qed.

Lemma characteristic_polynomial_spec_witness :
  exists p,
    characteristic_polynomial (mkLRS [0; 1; 2] [-2; 1; 2] 3) = OK p
    /\ degree p = 3
    /\ leading_coefficient p = 1
    /\ coefficient p 3 = 1
    /\ (forall i, 0 <= i < 3 ->
          coefficient p (3 - 1 - i) = - nth (Z.to_nat i) [-2; 1; 2] 0)
    /\ (forall x,
          eval p x
          = x ^ 3
            - zsum (fun i => nth i [-2; 1; 2] 0 * x ^ (3 - 1 - Z.of_nat i)) 3)
    /\ (forall u1 other,
          __init__ u1 [-2; 1; 2] = OK other ->
          characteristic_polynomial other = OK p).
Proof.
  apply (@characteristic_polynomial_spec
           [0; 1; 2] [-2; 1; 2] (mkLRS [0; 1; 2] [-2; 1; 2] 3)).
  reflexivity.
Defined.

(** ** Polynomials over the rationals acting on sequences *)

Local Open Scope Qc_scope.

Lemma Z2Qc_add (x y : Z) : Z2Qc (x + y) = Z2Qc x + Z2Qc y.
Proof.
  unfold Z2Qc, Qcplus. apply Q2Qc_eq_iff.
  cbn [this Q2Qc]. rewrite !Qred_correct, inject_Z_plus. reflexivity.
Qed.

Lemma Z2Qc_mul (x y : Z) : Z2Qc (x * y) = Z2Qc x * Z2Qc y.
Proof.
  unfold Z2Qc, Qcmult. apply Q2Qc_eq_iff.
  cbn [this Q2Qc]. rewrite !Qred_correct, inject_Z_mult. reflexivity.
Qed.

Lemma Z2Qc_opp (x : Z) : Z2Qc (- x) = - Z2Qc x.
Proof.
  unfold Z2Qc, Qcopp. apply Q2Qc_eq_iff.
  cbn [this Q2Qc]. rewrite !Qred_correct, inject_Z_opp. reflexivity.
Qed.

Lemma Qc_1_neq_0 : (1 : Qc) <> 0.
Proof. intros H. apply Q2Qc_eq_iff in H. discriminate H. Qed.

Section Action.

Lemma act_ext_range (f : list Qc) (x y : nat -> Qc) (n : nat) :
  (forall k, (k < length f)%nat -> x (n + k)%nat = y (n + k)%nat) ->
  act f x n = act f y n.
Proof.
  revert n; induction f as [|c f IH]; intros n H; [reflexivity|].
  cbn [act]. rewrite (IH (S n)).
  - specialize (H O). rewrite Nat.add_0_r in H.
    rewrite H by (cbn; lia). reflexivity.
  - intros k Hk. replace (S n + k)%nat with (n + S k)%nat by lia.
    apply H. cbn; lia.
Qed.

Lemma act_ext (f : list Qc) (x y : nat -> Qc) (n : nat) :
  (forall k, x k = y k) -> act f x n = act f y n.
Proof. intros H. apply act_ext_range. intros k _. apply H. Qed.

Lemma act_zero_range (f : list Qc) (x : nat -> Qc) (n : nat) :
  (forall k, (k < length f)%nat -> x (n + k)%nat = 0) -> act f x n = 0.
Proof.
  revert n; induction f as [|c f IH]; intros n H; [reflexivity|].
  cbn [act]. rewrite (IH (S n)).
  - specialize (H O). rewrite Nat.add_0_r in H.
    rewrite H by (cbn; lia). ring.
  - intros k Hk. replace (S n + k)%nat with (n + S k)%nat by lia.
    apply H. cbn; lia.
Qed.

Lemma act_add (f : list Qc) (x y : nat -> Qc) (n : nat) :
  act f (fun m => x m + y m) n = act f x n + act f y n.
Proof.
  revert n; induction f as [|c f IH]; intros n; cbn [act]; [ring|].
  rewrite IH. ring.
Qed.

Lemma act_scal (f : list Qc) (c : Qc) (x : nat -> Qc) (n : nat) :
  act f (fun m => c * x m) n = c * act f x n.
Proof.
  revert n; induction f as [|c0 f IH]; intros n; cbn [act]; [ring|].
  rewrite IH. ring.
Qed.

Lemma act_shift (f : list Qc) (x : nat -> Qc) (n : nat) :
  act f (fun m => x (S m)) n = act f x (S n).
Proof.
  revert n; induction f as [|c f IH]; intros n; cbn [act]; [reflexivity|].
  now rewrite IH.
Qed.

(** Two shift operators commute. *)
Lemma act_comm (f g : list Qc) (s : nat -> Qc) (n : nat) :
  act f (fun m => act g s m) n = act g (fun m => act f s m) n.
Proof.
  revert n; induction f as [|c f IH]; intros n.
  - cbn [act]. symmetry. apply act_zero_range. reflexivity.
  - cbn [act]. rewrite IH, act_add, act_scal.
    now rewrite (act_shift g (fun k => act f s k)).
Qed.

Lemma act_app (f g : list Qc) (s : nat -> Qc) (n : nat) :
  act (f ++ g) s n = act f s n + act g s (n + length f).
Proof.
  revert n; induction f as [|c f IH]; intros n.
  - cbn [app act length]. rewrite Nat.add_0_r. ring.
  - cbn [app act length]. rewrite IH.
    replace (S n + length f)%nat with (n + S (length f))%nat by lia. ring.
Qed.

Lemma act_qscale (c : Qc) (f : list Qc) (s : nat -> Qc) (n : nat) :
  act (qscale c f) s n = c * act f s n.
Proof.
  revert n; induction f as [|c0 f IH]; intros n; cbn [qscale map act];
    [ring|].
  fold (qscale c f). rewrite IH. ring.
Qed.

Lemma act_qsub (f g : list Qc) (s : nat -> Qc) (n : nat) :
  length f = length g ->
  act (qsub f g) s n = act f s n - act g s n.
Proof.
  revert g n; induction f as [|c f IH]; intros [|e g] n H;
    try discriminate; cbn [qsub combine map act]; [ring|].
  fold (qsub f g). rewrite IH by (simpl in H; lia).
  cbn [fst snd]. ring.
Qed.

Lemma act_zeros (k : nat) (s : nat -> Qc) (n : nat) :
  act (repeat 0 k) s n = 0.
Proof.
  revert n; induction k as [|k IH]; intros n; cbn [repeat act]; [reflexivity|].
  rewrite IH. ring.
Qed.

End Action.

(** ** Division by a monic polynomial *)

Section Division.

Lemma monic_split (p : list Qc) : monic p -> exists p', p = p' ++ [1].
Proof.
  unfold monic. intros H. destruct p as [|c p].
  - cbn in H. symmetry in H. now apply Qc_1_neq_0 in H.
  - exists (removelast (c :: p)). rewrite <- H.
    apply app_removelast_last. discriminate.
Qed.

Lemma qsub_app (x y x' y' : list Qc) :
  length x = length y ->
  qsub (x ++ x') (y ++ y') = qsub x y ++ qsub x' y'.
Proof.
  revert y; induction x as [|c x IH]; intros [|e y] H; try discriminate;
    [reflexivity|].
  cbn [app]. unfold qsub in *. cbn [combine map].
  rewrite IH by (simpl in H; lia). reflexivity.
Qed.

Lemma length_qsub (x y : list Qc) :
  length x = length y -> length (qsub x y) = length x.
Proof.
  intros H. unfold qsub. rewrite length_map, length_combine. lia.
Qed.

Lemma length_qscale (c : Qc) (x : list Qc) : length (qscale c x) = length x.
Proof. apply length_map. Qed.

(** One step of the division, on a divisor split as [p' ++ [1]]. *)
Lemma divmod_step (p' r' : list Qc) (c0 : Qc) :
  length r' = length p' ->
  exists x', c0 :: r' = x' ++ [last (c0 :: r') 0]
    /\ length x' = length p'
    /\ removelast (qsub (c0 :: r') (qscale (last (c0 :: r') 0) (p' ++ [1])))
       = qsub x' (qscale (last (c0 :: r') 0) p').
Proof.
  intros Hl. set (top := last (c0 :: r') 0).
  assert (Hx : c0 :: r' = removelast (c0 :: r') ++ [top])
    by (apply app_removelast_last; discriminate).
  exists (removelast (c0 :: r')).
  assert (Hlen : length (removelast (c0 :: r')) = length p').
  { apply (f_equal (@length Qc)) in Hx.
    rewrite length_app in Hx. cbn [length] in Hx. lia. }
  repeat split; [exact Hx|exact Hlen|].
  rewrite Hx at 1. unfold qscale at 1. rewrite map_app. fold (qscale top p').
  rewrite qsub_app by (now rewrite length_qscale).
  cbn [map qsub combine]. apply removelast_last.
Qed.

Variable p : list Qc.
Hypothesis p_monic : monic p.

Lemma length_divmod (c : list Qc) :
  length (snd (poly_divmod c p)) = (length p - 1)%nat.
Proof.
  destruct (monic_split p_monic) as [p' Hp].
  assert (HL : (length p - 1)%nat = length p')
    by (rewrite Hp, length_app; cbn [length]; lia).
  induction c as [|c0 c IH]; cbn [poly_divmod snd].
  - apply repeat_length.
  - destruct (poly_divmod c p) as [q' r']. cbn [snd] in *.
    rewrite HL in IH.
    destruct (divmod_step p' r' c0 IH) as (x' & _ & Hx' & Hrem).
    rewrite Hp at 1. rewrite Hrem, length_qsub, HL;
      rewrite ?length_qscale; assumption.
Qed.

(** Dividing does not change the action on a sequence the divisor
    annihilates. *)
Lemma act_divmod (s : nat -> Qc) (c : list Qc) :
  (forall n, act p s n = 0) ->
  forall n, act (snd (poly_divmod c p)) s n = act c s n.
Proof.
  intros Hp0. destruct (monic_split p_monic) as [p' Hp].
  assert (HL : (length p - 1)%nat = length p')
    by (rewrite Hp, length_app; cbn [length]; lia).
  induction c as [|c0 c IH]; intros n; cbn [poly_divmod snd].
  - apply act_zeros.
  - pose proof (length_divmod c) as Hlen.
    destruct (poly_divmod c p) as [q' r']. cbn [snd] in *.
    rewrite HL in Hlen.
    destruct (divmod_step p' r' c0 Hlen) as (x' & Hx & Hx' & Hrem).
    rewrite Hp at 1. rewrite Hrem.
    rewrite act_qsub, act_qscale by (now rewrite length_qscale).
    set (top := last (c0 :: r') 0) in *.
    assert (Hxr : act x' s n
                  = act (c0 :: r') s n - top * s (n + length p')%nat).
    { rewrite Hx, act_app, Hx'. cbn [act]. ring. }
    assert (Hpp : act p' s n = - s (n + length p')%nat).
    { specialize (Hp0 n). rewrite Hp, act_app in Hp0. cbn [act] in Hp0.
      replace (act p' s n)
        with (act p' s n + (1 * s (n + length p')%nat + 0)
              - s (n + length p')%nat) by ring.
      rewrite Hp0. ring. }
    rewrite Hxr, Hpp. cbn [act]. rewrite IH. ring.
Qed.

(** The division identity, on values. *)
Lemma qeval_app (f g : list Qc) (x : Qc) :
  qeval (f ++ g) x = qeval f x + x ^ length f * qeval g x.
Proof.
  induction f as [|c f IH]; cbn [app qeval length Qcpower]; [ring|].
  rewrite IH. ring.
Qed.

Lemma qeval_qsub (f g : list Qc) (x : Qc) :
  length f = length g -> qeval (qsub f g) x = qeval f x - qeval g x.
Proof.
  revert g; induction f as [|c f IH]; intros [|e g] H; try discriminate;
    cbn [qsub combine map qeval]; [ring|].
  fold (qsub f g). rewrite IH by (simpl in H; lia). cbn [fst snd]. ring.
Qed.

Lemma qeval_qscale (c : Qc) (f : list Qc) (x : Qc) :
  qeval (qscale c f) x = c * qeval f x.
Proof.
  induction f as [|c0 f IH]; cbn [qscale map qeval]; [ring|].
  fold (qscale c f). rewrite IH. ring.
Qed.

Lemma poly_divmod_spec (c : list Qc) (x : Qc) :
  qeval c x
  = qeval (fst (poly_divmod c p)) x * qeval p x
    + qeval (snd (poly_divmod c p)) x.
Proof.
  destruct (monic_split p_monic) as [p' Hp].
  assert (HL : (length p - 1)%nat = length p')
    by (rewrite Hp, length_app; cbn [length]; lia).
  induction c as [|c0 c IH]; cbn [poly_divmod fst snd].
  - assert (Hz : forall k, qeval (repeat 0 k) x = 0)
      by (induction k as [|k IHk]; cbn [repeat qeval]; [|rewrite IHk]; ring).
    rewrite Hz. cbn [qeval]. ring.
  - pose proof (length_divmod c) as Hlen.
    destruct (poly_divmod c p) as [q' r']. cbn [fst snd] in *.
    rewrite HL in Hlen.
    destruct (divmod_step p' r' c0 Hlen) as (x' & Hx & Hx' & Hrem).
    rewrite Hp at 2. rewrite Hrem.
    rewrite qeval_qsub, qeval_qscale by (now rewrite length_qscale).
    set (top := last (c0 :: r') 0) in *.
    assert (Hxr : qeval x' x = qeval (c0 :: r') x - x ^ length p' * top).
    { rewrite Hx, qeval_app, Hx'. cbn [qeval]. ring. }
    assert (Hpe : qeval p x = qeval p' x + x ^ length p')
      by (rewrite Hp, qeval_app; cbn [qeval]; ring).
    rewrite Hxr. cbn [qeval]. rewrite IH, Hpe. ring.
Qed.

End Division.

Arguments length_divmod [p] _ c.
Arguments act_divmod [p] _ s c _ n.
Arguments poly_divmod_spec [p] _ c x.

Lemma act_qstrip (l : list Qc) (s : nat -> Qc) (n : nat) :
  act (qstrip l) s n = act l s n.
Proof.
  revert n; induction l as [|c l IH]; intros n; [reflexivity|].
  cbn [qstrip act]. rewrite <- IH.
  destruct (qstrip l) as [|c1 r]; [|reflexivity].
  destruct (Qc_eq_dec c 0) as [->|Hc]; cbn [act]; ring.
Qed.

Lemma last_qstrip (l : list Qc) : qstrip l <> [] -> last (qstrip l) 0 <> 0.
Proof.
  induction l as [|c l IH]; [now intros H|].
  cbn [qstrip]. destruct (qstrip l) as [|c1 r].
  - destruct (Qc_eq_dec c 0) as [->|Hc]; [now intros H|]. intros _. exact Hc.
  - intros _. apply IH. discriminate.
Qed.

Lemma length_qstrip (l : list Qc) : (length (qstrip l) <= length l)%nat.
Proof.
  induction l as [|c l IH]; [reflexivity|].
  cbn [qstrip]. destruct (qstrip l) as [|c1 r].
  - destruct (Qc_eq_dec c 0); cbn [length]; lia.
  - cbn [length] in *. lia.
Qed.

(** ** The shortest recurrence of a sample divides every recurrence *)

Section Annihilator.

Variable s : nat -> Qc.

(** A monic polynomial [c' ++ [1]] of degree [length c'] annihilating the
    whole sequence. *)
Variable c' : list Qc.
Hypothesis c_ann : forall n, act (c' ++ [1]) s n = 0.

(** A monic polynomial annihilating the first [2 * length c'] terms, of
    least degree among such. *)
Variable p : list Qc.
Hypothesis p_monic : monic p.
Hypothesis p_sample :
  forall n, (n + length p <= 2 * length c')%nat -> act p s n = 0.
Hypothesis p_least :
  forall q, monic q ->
    (forall n, (n + length q <= 2 * length c')%nat -> act q s n = 0) ->
    (length p <= length q)%nat.

Lemma p_short : (length p <= S (length c'))%nat.
Proof.
  replace (S (length c')) with (length (c' ++ [1]))
    by (rewrite length_app; cbn [length]; lia).
  apply p_least.
  - unfold monic. apply last_last.
  - intros n _. apply c_ann.
Qed.

(** The sample is long enough: [p] annihilates the whole sequence. *)
Lemma p_ann : forall n, act p s n = 0.
Proof.
  pose proof p_short as Hshort.
  assert (Hstep : forall m,
            act p s (m + length c') = - act c' (fun k => act p s k) m).
  { intros m.
    assert (H : act (c' ++ [1]) (fun k => act p s k) m = 0).
    { rewrite act_comm. apply act_zero_range. intros k _. apply c_ann. }
    rewrite act_app in H. cbn [act] in H.
    replace (act p s (m + length c'))
      with (act c' (fun k => act p s k) m
            + (1 * act p s (m + length c') + 0)
            - act c' (fun k => act p s k) m) by ring.
    rewrite H. ring. }
  assert (Hall : forall N n, (n < N)%nat -> act p s n = 0).
  { induction N as [|N IH]; intros n Hn; [lia|].
    destruct (Nat.lt_ge_cases n (length c')) as [Hlt|Hge].
    - apply p_sample. lia.
    - replace n with ((n - length c') + length c')%nat by lia.
      rewrite Hstep, act_zero_range; [ring|].
      intros k Hk. apply IH. lia. }
  intros n. apply (Hall (S n)). lia.
Qed.

(** The remainder of the division of [c' ++ [1]] by [p] is zero. *)
Lemma rem_zero : poly_rem (c' ++ [1]) p = [].
Proof.
  unfold poly_rem.
  set (r := snd (poly_divmod (c' ++ [1]) p)).
  destruct (qstrip r) as [|c1 r1] eqn:E; [reflexivity|exfalso].
  assert (Hne : qstrip r <> []) by (rewrite E; discriminate).
  pose proof (last_qstrip r Hne) as Hlc.
  set (lc := last (qstrip r) 0) in *.
  set (q := qscale (/ lc) (qstrip r)).
  assert (Hq : monic q).
  { unfold monic, q. rewrite (app_removelast_last 0 Hne). fold lc.
    unfold qscale. rewrite map_app. cbn [map]. rewrite last_last.
    now apply Qcmult_inv_l. }
  assert (Hqa : forall n, act q s n = 0).
  { intros n. unfold q. rewrite act_qscale, act_qstrip. unfold r.
    rewrite (act_divmod p_monic s (c' ++ [1]) p_ann), c_ann. ring. }
  assert (Hlen : (length q <= length p - 1)%nat).
  { unfold q. rewrite length_qscale.
    rewrite <- (length_divmod p_monic (c' ++ [1])). apply length_qstrip. }
  assert (Hp1 : (1 <= length p)%nat).
  { destruct (monic_split p_monic) as [p' ->].
    rewrite length_app. cbn [length]. lia. }
  pose proof (p_least Hq (fun n _ => Hqa n)). lia.
Qed.

End Annihilator.

Lemma act_shift_by (f : list Qc) (s : nat -> Qc) (k n : nat) :
  act f (fun j => s (j + k)%nat) n = act f s (n + k)%nat.
Proof.
  revert n; induction f as [|c f IH]; intros n; cbn [act]; [reflexivity|].
  now rewrite IH.
Qed.

Lemma act_zeros_app (k : nat) (q : list Qc) (s : nat -> Qc) (n : nat) :
  act (repeat 0 k ++ q) s n = act q s (n + k)%nat.
Proof.
  rewrite act_app, act_zeros, repeat_length. ring.
Qed.

Lemma last_app_nonempty (l q : list Qc) :
  q <> [] -> last (l ++ q) 0 = last q 0.
Proof.
  intros Hq. induction l as [|x l IH]; [reflexivity|].
  cbn [app]. destruct (l ++ q) eqn:E; [|exact IH].
  destruct l; [contradiction|discriminate].
Qed.

Lemma monic_zeros_app (k : nat) (p : list Qc) :
  monic (repeat 0 k ++ p) -> monic p.
Proof.
  unfold monic. destruct p as [|c p].
  - rewrite app_nil_r. intros H. exfalso.
    assert (Hz : last (repeat (0 : Qc) k) 0 = 0).
    { clear H. induction k as [|k IH]; [reflexivity|].
      cbn [repeat]. destruct (repeat (0 : Qc) k); [reflexivity|exact IH]. }
    rewrite Hz in H. symmetry in H. now apply Qc_1_neq_0 in H.
  - now rewrite last_app_nonempty by discriminate.
Qed.

(** ** A recurrence of least degree with its factors [x] left out *)

Section ShiftedAnnihilator.

Variable s : nat -> Qc.
Variable c' : list Qc.
Hypothesis c_ann : forall n, act (c' ++ [1]) s n = 0.

(** A polynomial [p] such that [x^k * p] is the monic recurrence of least
    degree of the first [2 * length c'] terms. *)
Variable k : nat.
Variable p : list Qc.
Hypothesis m_monic : monic (repeat 0%Qc k ++ p).
Hypothesis m_sample :
  forall n, (n + length (repeat 0%Qc k ++ p) <= 2 * length c')%nat ->
            act (repeat 0%Qc k ++ p) s n = 0.
Hypothesis m_least :
  forall q, monic q ->
    (forall n, (n + length q <= 2 * length c')%nat -> act q s n = 0) ->
    (length (repeat 0%Qc k ++ p) <= length q)%nat.

Lemma shifted_ann : forall n, act p s (n + k)%nat = 0.
Proof.
  intros n. rewrite <- act_zeros_app.
  apply (@p_ann s c' c_ann (repeat 0%Qc k ++ p) m_sample m_least).
Qed.

(** The remainder of the division of [c' ++ [1]] by [p] is zero. *)
Lemma rem_zero_shift : poly_rem (c' ++ [1]) p = [].
Proof.
  pose proof (monic_zeros_app k p m_monic) as p_monic.
  unfold poly_rem.
  set (r := snd (poly_divmod (c' ++ [1]) p)).
  destruct (qstrip r) as [|c1 r1] eqn:E; [reflexivity|exfalso].
  assert (Hne : qstrip r <> []) by (rewrite E; discriminate).
  pose proof (last_qstrip r Hne) as Hlc.
  set (lc := last (qstrip r) 0) in *.
  set (q := qscale (/ lc) (qstrip r)).
  assert (Hqne : q <> []).
  { unfold q, qscale. destruct (qstrip r); [contradiction|discriminate]. }
  assert (Hq : monic q).
  { unfold monic, q. rewrite (app_removelast_last 0 Hne). fold lc.
    unfold qscale. rewrite map_app. cbn [map]. rewrite last_last.
    now apply Qcmult_inv_l. }
  assert (Hqa : forall n, act q s (n + k)%nat = 0).
  { intros n. unfold q. rewrite act_qscale, act_qstrip. unfold r.
    rewrite <- act_shift_by.
    rewrite (act_divmod p_monic (fun j => s (j + k)%nat) (c' ++ [1])).
    - rewrite act_shift_by, c_ann. ring.
    - intros j. rewrite act_shift_by. apply shifted_ann. }
  assert (Hlen : (length q <= length p - 1)%nat).
  { unfold q. rewrite length_qscale.
    rewrite <- (length_divmod p_monic (c' ++ [1])). apply length_qstrip. }
  assert (Hp1 : (1 <= length p)%nat).
  { destruct (monic_split p_monic) as [p' ->].
    rewrite length_app. cbn [length]. lia. }
  assert (Hm : monic (repeat 0%Qc k ++ q))
    by (unfold monic; now rewrite last_app_nonempty).
  pose proof (m_least Hm (fun n _ => eq_trans (act_zeros_app k q s n) (Hqa n)))
    as Hle.
  rewrite !length_app in Hle. lia.
Qed.

End ShiftedAnnihilator.

(** ** The sample handed to Berlekamp-Massey *)

Local Open Scope Z_scope.

Lemma mapM_ok {A B : Type} (f : A -> result B) (g : A -> B) (l : list A) :
  (forall x, In x l -> f x = OK (g x)) -> mapM f l = OK (map g l).
Proof.
  induction l as [|x l IH]; intros H; [reflexivity|].
  cbn [mapM map]. rewrite H by (now left). cbn [bind].
  rewrite IH by (intros y Hy; apply H; now right). reflexivity.
Qed.

Lemma seq_offset (k s n : nat) :
  map (fun i => (k + i)%nat) (seq s n) = seq (k + s) n.
Proof.
  revert s; induction n as [|n IH]; intros s; [reflexivity|].
  cbn [seq map]. rewrite IH. now replace (k + S s)%nat with (S (k + s)) by lia.
Qed.

Lemma dot_opp (x y : list Z) : dot ZZ (map Z.opp x) y = - dot ZZ x y.
Proof.
  revert y; induction x as [|x0 x IH]; intros [|y0 y]; try reflexivity.
  cbn [map]. rewrite !dot_cons, IH. ring.
Qed.

Lemma act_dot (f : list Z) (t : nat -> Z) (n : nat) :
  act (map Z2Qc f) (fun k => Z2Qc (t k)) n
  = Z2Qc (dot ZZ f (map t (seq n (length f)))).
Proof.
  revert n; induction f as [|c f IH]; intros n; [reflexivity|].
  cbn [map act length seq]. rewrite dot_cons, IH, Z2Qc_add, Z2Qc_mul.
  reflexivity.
Qed.

Lemma qeval_qstrip (l : list Qc) (x : Qc) : qeval (qstrip l) x = qeval l x.
Proof.
  induction l as [|c l IH]; [reflexivity|].
  cbn [qstrip qeval]. rewrite <- IH.
  destruct (qstrip l) as [|c1 r]; [|reflexivity].
  destruct (Qc_eq_dec c 0) as [->|Hc]; cbn [qeval]; ring.
Qed.

Section MinimalPolynomial.

Variables (u0 a0 : list Z) (self : LinearRecurrenceSequence).
Hypothesis Hvalid : __init__ u0 a0 = OK self.

Let order : nat := length (a self).

(** The characteristic polynomial annihilates the sequence of terms. *)
Lemma charpoly_annihilates (n : nat) :
  (act (map Z2Qc (map Z.opp (rev (a self))) ++ [1])
       (fun k => Z2Qc (value self k)) n = 0)%Qc.
Proof.
  destruct (valid_lengths Hvalid) as (Hl & H3 & _).
  assert (Hpos : (1 <= length (a self))%nat) by lia.
  rewrite act_app, act_dot. cbn [act].
  rewrite !length_map, length_rev, dot_opp.
  unfold value at 1.
  rewrite <- (window_values Hpos Hl), <- (term_value_dot Hpos Hl).
  fold (value self (n + length (a self))).
  rewrite Z2Qc_opp. ring.
Qed.

(** The sample is made of the first [2 * d] terms. *)
Lemma bm_input_values :
  bm_input self = OK (map (value self) (seq 0 (2 * order))).
Proof.
  destruct (valid_lengths Hvalid) as (Hl & H3 & Hd).
  assert (Hpos : (1 <= length (a self))%nat) by lia.
  unfold bm_input.
  rewrite (mapM_ok _ (fun i => value self (Z.to_nat (d self + i)))).
  - cbn [bind]. f_equal.
    replace (2 * order)%nat with (order + order)%nat by lia.
    rewrite seq_app, map_app. f_equal.
    + pose proof (window_values Hpos Hl 0) as Hw. exact Hw.
    + unfold range. rewrite map_map, Hd, Nat2Z.id. fold order.
      replace (0 + order)%nat with (order + 0)%nat by lia.
      rewrite <- seq_offset, map_map. apply map_ext. intros i.
      f_equal. lia.
  - intros x Hx. apply (term_total Hvalid).
    unfold range in Hx. apply in_map_iff in Hx.
    destruct Hx as (i & <- & _). lia.
Qed.

End MinimalPolynomial.

Arguments charpoly_annihilates [u0 a0 self] _ n.
Arguments bm_input_values [u0 a0 self] _.

(** On the first [length l] indices the sample sequence is the list. *)
Lemma act_sample (f : nat -> Z) (m : nat) (q : list Qc) (n : nat) :
  (n + length q <= m)%nat ->
  act q (sample_seq (map f (seq 0 m))) n = act q (fun k => Z2Qc (f k)) n.
Proof.
  intros H. apply act_ext_range. intros k Hk. unfold sample_seq.
  rewrite (nth_indep _ 0 (f O)) by (rewrite length_map, length_seq; lia).
  rewrite map_nth, seq_nth by lia. reflexivity.
Qed.

(** C5: the minimal polynomial is what Berlekamp-Massey reports on the
    first [2 * d] terms of the sequence: the [d] initial terms followed by
    [term(d)], ..., [term(2d-1)].  When the reported polynomial is the monic
    recurrence of least degree satisfied by that sample, with or without
    its factors [x], it is monic and divides the characteristic polynomial
    with zero remainder. *)
Theorem minimal_polynomial_divides
    (berlekamp_massey : list Z -> result (list Qc))
    (u0 a0 : list Z) (self : LinearRecurrenceSequence) :
  __init__ u0 a0 = OK self ->
  exists input c,
    bm_input self = OK input
    /\ len input = 2 * d self
    /\ firstn (Z.to_nat (d self)) input = u self
    /\ (forall k, 0 <= k < 2 * d self ->
          term self k = OK (nth (Z.to_nat k) input 0))
    /\ minimal_polynomial berlekamp_massey self = berlekamp_massey input
    /\ characteristic_polynomial self = OK c
    /\ forall p,
         berlekamp_massey input = OK p ->
         berlekamp_massey_reports input p ->
         minimal_polynomial berlekamp_massey self = OK p
         /\ monic p
         /\ poly_rem (map Z2Qc c) p = []
         /\ exists q,
              forall x, qeval (map Z2Qc c) x = (qeval q x * qeval p x)%Qc.
Proof.
  intros Hvalid.
  destruct (valid_lengths Hvalid) as (Hl & H3 & Hd).
  assert (Hpos : (1 <= length (a self))%nat) by lia.
  pose proof (bm_input_values Hvalid) as Hin.
  set (m := (2 * length (a self))%nat) in *.
  set (input := map (value self) (seq 0 m)) in *.
  assert (Hc : characteristic_polynomial self
               = OK (map Z.opp (rev (a self)) ++ [1])).
  { unfold characteristic_polynomial, PolynomialRing, charpoly_list.
    cbn [Integers Z.eqb bind].
    fold (vector ZZ (map Z.opp (rev (a self)) ++ [1])).
    rewrite vector_ZZ, strip_app_nonzero by lia. reflexivity. }
  assert (Hmin : minimal_polynomial berlekamp_massey self
                 = berlekamp_massey input).
  { unfold minimal_polynomial. now rewrite Hin. }
  exists input, (map Z.opp (rev (a self)) ++ [1]).
  split; [exact Hin|]. split.
  { unfold len, input, m. rewrite length_map, length_seq. lia. }
  split.
  { unfold input, m. rewrite Hd, Nat2Z.id, firstn_map.
    replace (2 * length (a self))%nat
      with (length (a self) + length (a self))%nat by lia.
    rewrite seq_app, firstn_app, length_seq, Nat.sub_diag.
    cbn [firstn]. rewrite app_nil_r.
    rewrite firstn_all2 by (rewrite length_seq; lia).
    symmetry. exact (window_values Hpos Hl 0). }
  split.
  { intros k Hk. rewrite (term_total Hvalid) by lia. f_equal.
    unfold input.
    rewrite (nth_indep _ 0 (value self O))
      by (rewrite length_map, length_seq; unfold m; lia).
    rewrite map_nth, seq_nth by (unfold m; lia). reflexivity. }
  split; [exact Hmin|]. split; [exact Hc|].
  intros p Hp (j & Hmonic_m & Hsat & Hleast).
  pose proof (monic_zeros_app j p Hmonic_m) as Hmonic.
  set (s := fun k => Z2Qc (value self k)).
  set (c' := map Z2Qc (map Z.opp (rev (a self)))).
  assert (Hlc : length c' = length (a self))
    by (unfold c'; now rewrite !length_map, length_rev).
  assert (Hlen : length input = m)
    by (unfold input; now rewrite length_map, length_seq).
  assert (HcQ : map Z2Qc (map Z.opp (rev (a self)) ++ [1]) = c' ++ [1%Qc])
    by (now rewrite map_app).
  assert (Hrem : poly_rem (c' ++ [1%Qc]) p = []).
  { apply (@rem_zero_shift s c') with (k := j).
    - intros n. apply (charpoly_annihilates Hvalid).
    - exact Hmonic_m.
    - intros n Hn. rewrite Hlc in Hn. fold m in Hn.
      unfold s.
      rewrite <- (@act_sample (value self) m (repeat 0%Qc j ++ p) n Hn).
      apply Hsat. rewrite Hlen. exact Hn.
    - intros q Hq Hqs. apply Hleast; [exact Hq|].
      intros n Hn. rewrite Hlen in Hn. unfold input.
      rewrite (@act_sample (value self) m q n Hn). apply Hqs.
      rewrite Hlc. exact Hn. }
  split; [now rewrite Hmin|]. split; [exact Hmonic|].
  rewrite HcQ. split; [exact Hrem|].
  exists (fst (poly_divmod (c' ++ [1%Qc]) p)). intros x.
  rewrite (poly_divmod_spec Hmonic (c' ++ [1%Qc]) x) at 1.
  rewrite <- (qeval_qstrip (snd _)). fold (poly_rem (c' ++ [1%Qc]) p).
  rewrite Hrem. cbn [qeval]. ring.
Qed.

(** The sample [0, 0, 1, 1, 1, 1] has the shortest recurrence [x^3 - x^2],
    of which [x - 1] is what remains without the factors [x]. *)
Lemma eventually_one_reports :
  berlekamp_massey_reports [0; 0; 1; 1; 1; 1] eventually_one_polynomial.
Proof.
  exists 2%nat. split; [reflexivity|]. split.
  - intros n Hn. cbn [length eventually_one_polynomial map repeat app] in Hn.
    destruct n as [|[|[|n]]]; [| | |lia];
      apply Qc_is_canon; vm_compute; reflexivity.
  - intros q Hq Hs. cbn [length eventually_one_polynomial map repeat app].
    destruct q as [|x0 [|x1 [|x2 [|x3 q]]]]; [| | | |cbn [length]; lia];
      exfalso; unfold monic in Hq; cbn [last] in Hq.
    + apply Qc_1_neq_0. now symmetry.
    + specialize (Hs 2%nat). unfold sample_seq in Hs.
      cbn [length act nth] in Hs.
      change (Z2Qc 1) with 1%Qc in Hs. subst x0.
      apply Qc_1_neq_0. rewrite <- Hs by lia. ring.
    + specialize (Hs 1%nat). unfold sample_seq in Hs.
      cbn [length act nth] in Hs.
      change (Z2Qc 1) with 1%Qc in Hs. change (Z2Qc 0) with 0%Qc in Hs.
      subst x1. apply Qc_1_neq_0. rewrite <- Hs by lia. ring.
    + specialize (Hs 0%nat). unfold sample_seq in Hs.
      cbn [length act nth] in Hs.
      change (Z2Qc 1) with 1%Qc in Hs. change (Z2Qc 0) with 0%Qc in Hs.
      subst x2. apply Qc_1_neq_0. rewrite <- Hs by lia. ring.
Qed.

Lemma minimal_polynomial_divides_witness :
  minimal_polynomial (fun _ => OK eventually_one_polynomial) eventually_one
  = OK eventually_one_polynomial
  /\ monic eventually_one_polynomial
  /\ poly_rem (map Z2Qc [0; 0; -1; 1]) eventually_one_polynomial = [].
Proof.
  destruct (@minimal_polynomial_divides
              (fun _ => OK eventually_one_polynomial)
              [0; 0; 1] [1; 0; 0] eventually_one eq_refl)
    as (input & c & Hin & _ & _ & _ & _ & Hc & H).
  assert (Ei : input = [0; 0; 1; 1; 1; 1]).
  { assert (E : bm_input eventually_one = OK [0; 0; 1; 1; 1; 1])
      by (vm_compute; reflexivity).
    rewrite E in Hin. now injection Hin. }
  assert (Ec : c = [0; 0; -1; 1]).
  { assert (E : characteristic_polynomial eventually_one
                = OK [0; 0; -1; 1]) by reflexivity.
    rewrite E in Hc. now injection Hc. }
  subst input c.
  destruct (H eventually_one_polynomial eq_refl eventually_one_reports)
    as (Hm & Hmonic & Hrem & _).
  repeat split; assumption.
Defined.

(** ** The invariant of constructed objects *)

(** X1: every object [__init__] returns holds the lists it was given, has
    [d = len(u) = len(a)] and order at least [3]. *)
Theorem init_invariant (u0 a0 : list Z) (self : LinearRecurrenceSequence) :
  __init__ u0 a0 = OK self ->
  u self = u0 /\ a self = a0
  /\ d self = len (u self) /\ len (u self) = len (a self) /\ 3 <= d self.
Proof.
  intros H. destruct (init_inv _ _ H) as (-> & Hl & H3). cbn [u a d].
  unfold len. repeat split; lia.
Qed.

Lemma init_invariant_witness :
  u tribonacci = [0; 0; 1] /\ a tribonacci = [1; 1; 1]
  /\ d tribonacci = len (u tribonacci)
  /\ len (u tribonacci) = len (a tribonacci) /\ 3 <= d tribonacci.
Proof.
  apply (@init_invariant [0; 0; 1] [1; 1; 1] tribonacci). reflexivity.
Defined.

(** ** Equality of recurrence objects *)

Lemma eq_true_iff (self other : LinearRecurrenceSequence) :
  __eq__ self other = true <-> u self = u other /\ a self = a other.
Proof.
  unfold __eq__.
  destruct (list_eq_dec Z.eq_dec (u self) (u other));
    destruct (list_eq_dec Z.eq_dec (a self) (a other)); cbn;
    intuition congruence.
Qed.

(** X2: [__eq__] is an equivalence relation on recurrence objects. *)
Theorem eq_equivalence :
  (forall s, __eq__ s s = true)
  /\ (forall s o, __eq__ s o = __eq__ o s)
  /\ (forall s o r,
        __eq__ s o = true -> __eq__ o r = true -> __eq__ s r = true).
Proof.
  split; [|split].
  - intros s. now apply eq_true_iff.
  - intros s o. destruct (__eq__ s o) eqn:E1, (__eq__ o s) eqn:E2;
      try reflexivity.
    + apply eq_true_iff in E1. destruct E1 as [E E'].
      assert (H : __eq__ o s = true) by (now apply eq_true_iff).
      congruence.
    + apply eq_true_iff in E2. destruct E2 as [E E'].
      assert (H : __eq__ s o = true) by (now apply eq_true_iff).
      congruence.
  - intros s o r H1 H2. apply eq_true_iff in H1, H2. apply eq_true_iff.
    destruct H1, H2. split; congruence.
Qed.

(** X3: objects that compare equal are interchangeable: every call, with
    every index and modulus, the characteristic polynomial and the
    transformation matrix agree, although [__eq__] does not look at [d]. *)
Theorem eq_interchangeable (self other : LinearRecurrenceSequence) :
  __eq__ self other = true ->
  (forall n modulus, __call__ self n modulus = __call__ other n modulus)
  /\ characteristic_polynomial self = characteristic_polynomial other
  /\ transformation_matrix self = transformation_matrix other.
Proof.
  intros H. apply eq_true_iff in H. destruct H as [Hu Ha].
  unfold __call__, characteristic_polynomial, transformation_matrix,
    charpoly_list.
  rewrite Hu, Ha. repeat split.
Qed.

Lemma eq_interchangeable_witness :
  (forall n modulus,
     __call__ tribonacci n modulus
     = __call__ (mkLRS [0; 0; 1] [1; 1; 1] 7) n modulus)
  /\ characteristic_polynomial tribonacci
     = characteristic_polynomial (mkLRS [0; 0; 1] [1; 1; 1] 7)
  /\ transformation_matrix tribonacci
     = transformation_matrix (mkLRS [0; 0; 1] [1; 1; 1] 7).
Proof.
  apply (@eq_interchangeable tribonacci (mkLRS [0; 0; 1] [1; 1; 1] 7)).
  reflexivity.
Defined.

(** X4: on constructed objects [__eq__] decides equality of the objects,
    that is, equality of the lists they were built from. *)
Theorem eq_constructed (u1 a1 u2 a2 : list Z)
    (s1 s2 : LinearRecurrenceSequence) :
  __init__ u1 a1 = OK s1 ->
  __init__ u2 a2 = OK s2 ->
  (__eq__ s1 s2 = true <-> s1 = s2)
  /\ (__eq__ s1 s2 = true <-> u1 = u2 /\ a1 = a2).
Proof.
  intros H1 H2.
  destruct (init_inv _ _ H1) as (-> & _ & _).
  destruct (init_inv _ _ H2) as (-> & _ & _).
  rewrite eq_true_iff. cbn [u a]. split; split.
  - intros [-> ->]. reflexivity.
  - intros E. injection E as -> ->. now split.
  - trivial.
  - trivial.
Qed.

Lemma eq_constructed_witness :
  (__eq__ tribonacci (mkLRS [0; 1; 2] [-2; 1; 2] 3) = true
   <-> tribonacci = mkLRS [0; 1; 2] [-2; 1; 2] 3)
  /\ (__eq__ tribonacci (mkLRS [0; 1; 2] [-2; 1; 2] 3) = true
      <-> [0; 0; 1] = [0; 1; 2] /\ [1; 1; 1] = [-2; 1; 2]).
Proof.
  apply (@eq_constructed [0; 0; 1] [1; 1; 1] [0; 1; 2] [-2; 1; 2]);
    reflexivity.
Defined.

(** ** Consecutive terms and the transformation matrix *)

(** The [d] consecutive terms from index [k] on are the [k]-th window. *)
Lemma terms_window (u0 a0 : list Z) (self : LinearRecurrenceSequence)
    (k : Z) :
  __init__ u0 a0 = OK self ->
  0 <= k ->
  mapM (fun i => term self (k + i)) (range (d self))
  = OK (window (a self) (u self) (Z.to_nat k)).
Proof.
  intros Hvalid Hk.
  destruct (valid_lengths Hvalid) as (Hl & H3 & Hd).
  assert (Hpos : (1 <= length (a self))%nat) by lia.
  rewrite (mapM_ok _ (fun i => value self (Z.to_nat (k + i)))).
  - f_equal. rewrite (window_values Hpos Hl).
    unfold range. rewrite map_map, Hd, Nat2Z.id.
    rewrite <- (Nat.add_0_r (Z.to_nat k)).
    rewrite <- seq_offset, map_map. apply map_ext. intros i.
    unfold value. f_equal. lia.
  - intros x Hx. apply (term_total Hvalid).
    unfold range in Hx. apply in_map_iff in Hx.
    destruct Hx as (i & <- & _). lia.
Qed.

Arguments terms_window [u0 a0 self] k _ _.

(** X5: the comment of [__call__]: the transformation matrix sends the
    terms [u_k, ..., u_{k+d-1}] to the terms [u_{k+1}, ..., u_{k+d}]. *)
Theorem transformation_matrix_advances (u0 a0 : list Z)
    (self : LinearRecurrenceSequence) (k : Z) (w : list Z) :
  __init__ u0 a0 = OK self ->
  0 <= k ->
  mapM (fun i => term self (k + i)) (range (d self)) = OK w ->
  mapM (fun i => term self (k + 1 + i)) (range (d self))
  = OK (mat_vec ZZ (transformation_matrix self) w).
Proof.
  intros Hvalid Hk Hw.
  rewrite (terms_window k Hvalid Hk) in Hw.
  injection Hw as <-.
  rewrite (terms_window (k + 1) Hvalid) by lia. f_equal.
  replace (Z.to_nat (k + 1)) with (S (Z.to_nat k)) by lia.
  reflexivity.
Qed.

Lemma transformation_matrix_advances_witness :
  mapM (fun i => term tribonacci (4 + 1 + i)) (range 3)
  = OK (mat_vec ZZ (transformation_matrix tribonacci) [2; 4; 7]).
Proof.
  apply (@transformation_matrix_advances [0; 0; 1] [1; 1; 1] tribonacci 4).
  - reflexivity.
  - lia.
  - reflexivity.
Defined.

(** ** The terms are the only solution of the recurrence *)

Lemma value_unique (u0 a0 : list Z) (self : LinearRecurrenceSequence)
    (f : nat -> Z) :
  __init__ u0 a0 = OK self ->
  (forall i, (i < length (a self))%nat -> f i = nth i (u self) 0) ->
  (forall k,
     f (k + length (a self))%nat
     = zsum (fun i => nth i (a self) 0 * f (k + (length (a self) - 1 - i))%nat)
            (length (a self))) ->
  forall n, value self n = f n.
Proof.
  intros Hvalid Hinit Hrec.
  destruct (valid_lengths Hvalid) as (Hl & H3 & Hd).
  assert (Hpos : (1 <= length (a self))%nat) by lia.
  assert (Hall : forall N n, (n < N)%nat -> value self n = f n).
  { induction N as [|N IH]; intros n Hn; [lia|].
    destruct (Nat.lt_ge_cases n (length (a self))) as [Hlt|Hge].
    - unfold value. rewrite (term_value_init Hpos Hl Hlt). symmetry.
      now apply Hinit.
    - replace n with ((n - length (a self)) + length (a self))%nat by lia.
      unfold value. rewrite (term_value_recurrence Hpos Hl), Hrec.
      apply zsum_ext. intros i Hi. f_equal. apply IH. lia. }
  intros n. apply (Hall (S n)). lia.
Qed.

(** X6: a function that starts with the initial terms and satisfies the
    recurrence from index [d] on is the sequence of terms. *)
Theorem term_unique (u0 a0 : list Z) (self : LinearRecurrenceSequence)
    (f : Z -> Z) :
  __init__ u0 a0 = OK self ->
  (forall i, 0 <= i < d self -> f i = nth (Z.to_nat i) (u self) 0) ->
  (forall n, d self <= n ->
     f n = zsum (fun i => nth i (a self) 0 * f (n - 1 - Z.of_nat i))
                (Z.to_nat (d self))) ->
  forall n, 0 <= n -> term self n = OK (f n).
Proof.
  intros Hvalid Hinit Hrec n Hn.
  destruct (valid_lengths Hvalid) as (Hl & H3 & Hd).
  rewrite (term_total Hvalid Hn). f_equal.
  rewrite (@value_unique u0 a0 self (fun k => f (Z.of_nat k)) Hvalid).
  - f_equal. lia.
  - intros i Hi. rewrite Hinit by lia. now rewrite Nat2Z.id.
  - intros k. rewrite Hrec by lia. rewrite Hd, Nat2Z.id.
    apply zsum_ext. intros i Hi. f_equal. f_equal. lia.
Qed.

Lemma term_unique_witness : term (mkLRS [1; 1; 1] [1; 0; 0] 3) 50 = OK 1.
Proof.
  apply (@term_unique [1; 1; 1] [1; 0; 0] (mkLRS [1; 1; 1] [1; 0; 0] 3)
                      (fun _ => 1)).
  - reflexivity.
  - intros i Hi. cbn [u d] in *.
    assert (E : i = 0 \/ i = 1 \/ i = 2) by lia.
    destruct E as [->|[->| ->]]; reflexivity.
  - intros n _. reflexivity.
  - lia.
Defined.

(** ** Reduced evaluation *)

Lemma call_positive_modulus (u0 a0 : list Z)
    (self : LinearRecurrenceSequence) (n m : Z) :
  __init__ u0 a0 = OK self ->
  0 <= n ->
  0 < m ->
  __call__ self n m = OK (value self (Z.to_nat n) mod m).
Proof.
  intros Hvalid Hn Hm.
  rewrite call_reduced, (term_total Hvalid Hn), Integers_positive
    by assumption.
  reflexivity.
Qed.

Arguments call_positive_modulus [u0 a0 self n m] _ _ _.

(** X7: with a positive modulus [m] the call returns a canonical
    representative: an integer from [0] to [m - 1]. *)
Theorem call_range (u0 a0 : list Z) (self : LinearRecurrenceSequence)
    (n m : Z) :
  __init__ u0 a0 = OK self ->
  0 <= n ->
  0 < m ->
  exists r, __call__ self n m = OK r /\ 0 <= r < m.
Proof.
  intros Hvalid Hn Hm. eexists. split.
  - apply (call_positive_modulus Hvalid Hn Hm).
  - apply Z.mod_pos_bound. exact Hm.
Qed.

Lemma call_range_witness :
  exists r, __call__ tribonacci 100 12 = OK r /\ 0 <= r < 12.
Proof.
  apply (@call_range [0; 0; 1] [1; 1; 1] tribonacci 100 12).
  - reflexivity.
  - lia.
  - lia.
Defined.

(** X8: reductions compose: when [m] divides [m'], reducing the term
    modulo [m'] and then modulo [m] is the term modulo [m]. *)
Theorem call_mod_divides (u0 a0 : list Z) (self : LinearRecurrenceSequence)
    (n m m' : Z) :
  __init__ u0 a0 = OK self ->
  0 <= n ->
  0 < m ->
  0 < m' ->
  (m | m') ->
  exists r', __call__ self n m' = OK r' /\ __call__ self n m = OK (r' mod m).
Proof.
  intros Hvalid Hn Hm Hm' Hdiv. eexists. split.
  - apply (call_positive_modulus Hvalid Hn Hm').
  - rewrite (call_positive_modulus Hvalid Hn Hm). f_equal.
    symmetry. apply Z.mod_mod_divide. exact Hdiv.
Qed.

Lemma call_mod_divides_witness :
  exists r', __call__ tribonacci 100 12 = OK r'
             /\ __call__ tribonacci 100 4 = OK (r' mod 4).
Proof.
  apply (@call_mod_divides [0; 0; 1] [1; 1; 1] tribonacci 100 4 12).
  - reflexivity.
  - lia.
  - lia.
  - lia.
  - exists 3. reflexivity.
Defined.

Lemma zsum_mod (m : Z) (c f : nat -> Z) (n : nat) :
  zsum (fun i => c i * (f i mod m)) n mod m = zsum (fun i => c i * f i) n mod m.
Proof.
  induction n as [|n IH]; [reflexivity|].
  cbn [zsum]. rewrite Zplus_mod, IH, Zmult_mod, Zmod_mod.
  rewrite <- Zmult_mod, <- Zplus_mod. reflexivity.
Qed.

(** X9: the reduced terms satisfy the recurrence modulo [m]: for
    [n >= d] the term modulo [m] is
    [a_0 * t (n-1) + ... + a_{d-1} * t (n-d)] modulo [m], where [t k] is the
    term of index [k] reduced modulo [m]. *)
Theorem call_recurrence_mod (u0 a0 : list Z)
    (self : LinearRecurrenceSequence) (n m : Z) :
  __init__ u0 a0 = OK self ->
  d self <= n ->
  0 < m ->
  exists t : Z -> Z,
    (forall k, 0 <= k -> __call__ self k m = OK (t k))
    /\ t n = zsum (fun i => nth i (a self) 0 * t (n - 1 - Z.of_nat i))
                  (Z.to_nat (d self)) mod m.
Proof.
  intros Hvalid Hn Hm.
  destruct (valid_lengths Hvalid) as (Hl & H3 & Hd).
  assert (Hpos : (1 <= length (a self))%nat) by lia.
  exists (fun k => value self (Z.to_nat k) mod m). split.
  - intros k Hk. apply (call_positive_modulus Hvalid Hk Hm).
  - rewrite (zsum_mod m (fun i => nth i (a self) 0)
                      (fun i => value self (Z.to_nat (n - 1 - Z.of_nat i)))).
    f_equal. rewrite Hd, Nat2Z.id in *.
    replace (Z.to_nat n)
      with (Z.to_nat (n - d self) + length (a self))%nat by lia.
    unfold value. rewrite (term_value_recurrence Hpos Hl).
    apply zsum_ext. intros i Hi. f_equal. f_equal. lia.
Qed.

Lemma call_recurrence_mod_witness :
  exists t : Z -> Z,
    (forall k, 0 <= k -> __call__ tribonacci k 5 = OK (t k))
    /\ t 9 = zsum (fun i => nth i [1; 1; 1] 0 * t (9 - 1 - Z.of_nat i)) 3 mod 5.
Proof.
  apply (@call_recurrence_mod [0; 0; 1] [1; 1; 1] tribonacci 9 5).
  - reflexivity.
  - simpl; lia.
  - lia.
Defined.

Lemma map_coerce_congr (m : Z) (x y : list Z) :
  Forall2 (fun p q => p mod m = q mod m) x y ->
  map (coerce (Zmod m)) x = map (coerce (Zmod m)) y.
Proof.
  induction 1 as [|p q x y Hpq _ IH]; [reflexivity|].
  cbn [map coerce] in *. now rewrite Hpq, IH.
Qed.

(** X10: with a positive modulus [m] only the residues of the data matter:
    two objects whose initial terms and whose coefficients are congruent
    modulo [m], entry by entry, give the same result at every index. *)
Theorem call_congruent_data (u1 a1 u2 a2 : list Z)
    (s1 s2 : LinearRecurrenceSequence) (m : Z) :
  __init__ u1 a1 = OK s1 ->
  __init__ u2 a2 = OK s2 ->
  0 < m ->
  Forall2 (fun p q => p mod m = q mod m) u1 u2 ->
  Forall2 (fun p q => p mod m = q mod m) a1 a2 ->
  forall n, __call__ s1 n m = __call__ s2 n m.
Proof.
  intros H1 H2 Hm Hu Ha n.
  destruct (valid_lengths H1) as (_ & H31 & _).
  destruct (valid_lengths H2) as (_ & H32 & _).
  destruct (init_inv _ _ H1) as (-> & _ & _).
  destruct (init_inv _ _ H2) as (-> & _ & _). cbn [a u] in *.
  unfold __call__, charpoly_list. cbn [a u].
  rewrite Integers_positive by assumption.
  cbn [bind].
  assert (Hlen : length a1 = length a2) by (eapply Forall2_length; eauto).
  assert (HF : change_ring (Zmod m)
                 (companion_matrix (map Z.opp (rev a1) ++ [1]))
               = change_ring (Zmod m)
                   (companion_matrix (map Z.opp (rev a2) ++ [1]))).
  { rewrite (companion_unfold a1), (companion_unfold a2) by lia.
    unfold change_ring. rewrite !map_app, Hlen. f_equal.
    cbn [map]. f_equal. rewrite !map_rev. f_equal.
    now apply map_coerce_congr. }
  rewrite HF. unfold vector. now rewrite (@map_coerce_congr m u1 u2 Hu).
Qed.

Lemma call_congruent_data_witness :
  __call__ (mkLRS [0; 1; 2] [-2; 1; 2] 3) 40 3
  = __call__ (mkLRS [3; 4; -1] [1; 4; 5] 3) 40 3.
Proof.
  apply (@call_congruent_data [0; 1; 2] [-2; 1; 2] [3; 4; -1] [1; 4; 5]).
  - reflexivity.
  - reflexivity.
  - lia.
  - repeat constructor.
  - repeat constructor.
Defined.

(** ** Shifting and combining sequences *)

(** X11: restarting from [d] consecutive terms shifts the sequence: the
    object built from the terms [u_k, ..., u_{k+d-1}] and the same
    coefficients is accepted, and its term of index [n] is [u_{n+k}]. *)
Theorem term_shift (u0 a0 : list Z) (self : LinearRecurrenceSequence)
    (k : Z) (w : list Z) :
  __init__ u0 a0 = OK self ->
  0 <= k ->
  mapM (fun i => term self (k + i)) (range (d self)) = OK w ->
  exists shifted,
    __init__ w a0 = OK shifted
    /\ forall n, 0 <= n -> term shifted n = term self (n + k).
Proof.
  intros Hvalid Hk Hw.
  rewrite (terms_window k Hvalid Hk) in Hw. injection Hw as <-.
  destruct (valid_lengths Hvalid) as (Hl & H3 & Hd).
  assert (Hpos : (1 <= length (a self))%nat) by lia.
  pose proof (length_window Hpos Hl (Z.to_nat k)) as Hlw.
  assert (Ha : a self = a0)
    by (destruct (init_inv _ _ Hvalid) as (-> & _); reflexivity).
  set (w := window (a self) (u self) (Z.to_nat k)) in *.
  assert (Hs : __init__ w a0 = OK (mkLRS w a0 (len w))).
  { unfold __init__, len. cbn [d]. rewrite <- Ha, Hlw, Z.eqb_refl.
    cbn [negb].
    replace (Z.of_nat (length (a self)) <? 3) with false
      by (symmetry; apply Z.ltb_ge; lia).
    reflexivity. }
  exists (mkLRS w a0 (len w)). split; [exact Hs|].
  intros n Hn.
  rewrite (term_total Hs Hn), (term_total Hvalid) by lia. f_equal.
  unfold value, term_value. cbn [a u]. rewrite <- Ha. f_equal.
  unfold w, window. rewrite <- Nat.iter_add. f_equal. lia.
Qed.

Lemma term_shift_witness :
  exists shifted,
    __init__ [2; 4; 7] [1; 1; 1] = OK shifted
    /\ forall n, 0 <= n -> term shifted n = term tribonacci (n + 4).
Proof.
  apply (@term_shift [0; 0; 1] [1; 1; 1] tribonacci 4 [2; 4; 7]).
  - reflexivity.
  - lia.
  - reflexivity.
Defined.

Lemma zsum_linear (c1 c2 : Z) (c x y : nat -> Z) (n : nat) :
  zsum (fun i => c i * (c1 * x i + c2 * y i)) n
  = c1 * zsum (fun i => c i * x i) n + c2 * zsum (fun i => c i * y i) n.
Proof.
  induction n as [|n IH]; cbn [zsum]; [ring|]. rewrite IH. ring.
Qed.

(** X12: the terms depend linearly on the initial terms: when the initial
    terms of a third object are the combination [c1 * u1 + c2 * u2], entry
    by entry, of those of two objects with the same coefficients, so is each
    of its terms. *)
Theorem term_linear (a0 u1 u2 u3 : list Z)
    (s1 s2 s3 : LinearRecurrenceSequence) (c1 c2 : Z) :
  __init__ u1 a0 = OK s1 ->
  __init__ u2 a0 = OK s2 ->
  __init__ u3 a0 = OK s3 ->
  (forall i, (i < length a0)%nat ->
     nth i u3 0 = c1 * nth i u1 0 + c2 * nth i u2 0) ->
  forall n, 0 <= n ->
  exists x1 x2,
    term s1 n = OK x1 /\ term s2 n = OK x2
    /\ term s3 n = OK (c1 * x1 + c2 * x2).
Proof.
  intros H1 H2 H3 Hu n Hn.
  exists (value s1 (Z.to_nat n)), (value s2 (Z.to_nat n)).
  split; [apply (term_total H1 Hn)|]. split; [apply (term_total H2 Hn)|].
  rewrite (term_total H3 Hn). f_equal.
  apply (@value_unique u3 a0 s3
           (fun k => c1 * value s1 k + c2 * value s2 k) H3);
    destruct (init_inv _ _ H1) as (-> & Hl1 & H31);
    destruct (init_inv _ _ H2) as (-> & Hl2 & _);
    destruct (init_inv _ _ H3) as (-> & _ & _);
    unfold value; cbn [a u];
    assert (Hpos : (1 <= length a0)%nat) by lia.
  - intros i Hi. rewrite Hu by assumption.
    now rewrite (term_value_init Hpos Hl1 Hi), (term_value_init Hpos Hl2 Hi).
  - intros k.
    rewrite (term_value_recurrence Hpos Hl1), (term_value_recurrence Hpos Hl2).
    symmetry.
    apply (zsum_linear c1 c2 (fun i => nth i a0 0)
             (fun i => term_value a0 u1 (k + (length a0 - 1 - i)))
             (fun i => term_value a0 u2 (k + (length a0 - 1 - i)))).
Qed.

Lemma term_linear_witness :
  exists x1 x2,
    term tribonacci 20 = OK x1
    /\ term (mkLRS [0; 1; 0] [1; 1; 1] 3) 20 = OK x2
    /\ term (mkLRS [0; -3; 2] [1; 1; 1] 3) 20 = OK (2 * x1 + -3 * x2).
Proof.
  apply (@term_linear [1; 1; 1] [0; 0; 1] [0; 1; 0] [0; -3; 2]
           tribonacci (mkLRS [0; 1; 0] [1; 1; 1] 3)
           (mkLRS [0; -3; 2] [1; 1; 1] 3) 2 (-3)).
  - reflexivity.
  - reflexivity.
  - reflexivity.
  - intros i Hi. cbn [length] in Hi.
    destruct i as [|[|[|i]]]; [reflexivity|reflexivity|reflexivity|lia].
  - lia.
Defined.

(** ** Roots of the characteristic polynomial *)

Lemma characteristic_polynomial_list (self : LinearRecurrenceSequence) :
  characteristic_polynomial self = OK (map Z.opp (rev (a self)) ++ [1]).
Proof.
  unfold characteristic_polynomial, PolynomialRing, charpoly_list.
  cbn [Integers Z.eqb bind].
  fold (vector ZZ (map Z.opp (rev (a self)) ++ [1])).
  rewrite vector_ZZ, strip_app_nonzero by lia. reflexivity.
Qed.

Lemma zsum_scale (c : Z) (f : nat -> Z) (n : nat) :
  c * zsum f n = zsum (fun i => c * f i) n.
Proof.
  induction n as [|n IH]; cbn [zsum]; [ring|]. rewrite <- IH. ring.
Qed.

(** X13: an integer root [x] of the characteristic polynomial gives a
    geometric solution: when the initial terms are [1, x, ..., x^(d-1)],
    the term of index [n] is [x^n]. *)
Theorem term_geometric (u0 a0 : list Z) (self : LinearRecurrenceSequence)
    (p : polynomial) (x : Z) :
  __init__ u0 a0 = OK self ->
  characteristic_polynomial self = OK p ->
  eval p x = 0 ->
  (forall i, (i < length u0)%nat -> nth i u0 0 = x ^ Z.of_nat i) ->
  forall n, 0 <= n -> term self n = OK (x ^ n).
Proof.
  intros Hvalid Hp Hroot Hu n Hn.
  rewrite characteristic_polynomial_list in Hp. injection Hp as <-.
  rewrite (term_total Hvalid Hn). f_equal.
  rewrite (@value_unique u0 a0 self (fun k => x ^ Z.of_nat k) Hvalid).
  - f_equal. lia.
  - destruct (init_inv _ _ Hvalid) as (-> & Hl & _). cbn [a u].
    intros i Hi. symmetry. apply Hu. lia.
  - intros k.
    rewrite eval_app, eval_opp, eval_rev in Hroot. cbn [eval] in Hroot.
    unfold len in Hroot. rewrite length_map, length_rev in Hroot.
    assert (Hd : x ^ Z.of_nat (length (a self))
                 = zsum (fun i => nth i (a self) 0
                                  * x ^ (Z.of_nat (length (a self)) - 1
                                         - Z.of_nat i))
                        (length (a self))) by lia.
    rewrite Nat2Z.inj_add, Z.pow_add_r, Hd, zsum_scale by lia.
    apply zsum_ext. intros i Hi.
    replace (Z.of_nat (k + (length (a self) - 1 - i)))
      with (Z.of_nat k + (Z.of_nat (length (a self)) - 1 - Z.of_nat i))
      by lia.
    rewrite Z.pow_add_r by lia. ring.
Qed.

Lemma term_geometric_witness :
  term (mkLRS [1; -2; 4] [-2; 1; 2] 3) 10 = OK ((-2) ^ 10).
Proof.
  apply (@term_geometric [1; -2; 4] [-2; 1; 2]
           (mkLRS [1; -2; 4] [-2; 1; 2] 3) [-2; -1; 2; 1] (-2)).
  - reflexivity.
  - reflexivity.
  - reflexivity.
  - intros i Hi. cbn [length] in Hi.
    destruct i as [|[|[|i]]]; [reflexivity|reflexivity|reflexivity|lia].
  - lia.
Defined.

(** ** The textual description determines the object *)

Lemma sapp_assoc (x y z : string) :
  ((x ++ y) ++ z = x ++ (y ++ z))%string.
Proof.
  induction x as [|c x IH]; [reflexivity|]. cbn. now rewrite IH.
Qed.

Lemma sapp_nil_r (x : string) : (x ++ "" = x)%string.
Proof.
  induction x as [|c x IH]; [reflexivity|]. cbn. now rewrite IH.
Qed.

Lemma sapp_inv_head (x y z : string) :
  (x ++ y = x ++ z)%string -> y = z.
Proof.
  induction x as [|c x IH]; [trivial|]. cbn. intros H.
  injection H as H. now apply IH.
Qed.

Lemma numeric_uint (n : Decimal.uint) : numeric (NilEmpty.string_of_uint n).
Proof.
  induction n; cbn; repeat split; assumption.
Qed.

Lemma numeric_str (z : Z) : numeric (str z).
Proof.
  unfold str. destruct (Z.to_int z) as [n|n]; cbn [NilZero.string_of_int].
  - destruct n; try apply numeric_uint. cbn. auto.
  - split; [reflexivity|].
    destruct n; try apply numeric_uint. cbn. auto.
Qed.

Lemma str_inj (x y : Z) : str x = str y -> x = y.
Proof.
  unfold str. intros H.
  assert (Hn : forall z, Z.to_int z <> Decimal.Pos Decimal.Nil
                         /\ Z.to_int z <> Decimal.Neg Decimal.Nil).
  { intros [|p|p]; cbn; split; try discriminate;
      intros E; injection E as E; now apply Unsigned.to_uint_nonnil in E. }
  apply (f_equal NilZero.int_of_string) in H.
  rewrite !NilZero.isi in H by apply Hn.
  injection H as H. apply (f_equal Z.of_int) in H.
  now rewrite !DecimalZ.of_to in H.
Qed.

(** A number followed by something that stops it is read back in one way
    only. *)
Lemma split_numeric (s1 s2 r1 r2 : string) :
  numeric s1 -> numeric s2 -> stops r1 -> stops r2 ->
  (s1 ++ r1 = s2 ++ r2)%string -> s1 = s2 /\ r1 = r2.
Proof.
  revert s2; induction s1 as [|c1 s1 IH]; intros [|c2 s2] N1 N2 S1 S2 H;
    cbn in H.
  - now split.
  - subst r1. cbn in S1. destruct N2 as [N2 _]. congruence.
  - subst r2. cbn in S2. destruct N1 as [N1 _]. congruence.
  - injection H as -> H. destruct N1 as [_ N1], N2 as [_ N2].
    destruct (IH s2 N1 N2 S1 S2 H) as [-> ->]. now split.
Qed.

Lemma concat_items_inj (sep : string) (pre post : nat -> string) :
  (forall r, stops (sep ++ r)) ->
  (forall i r, stops r -> stops (post i ++ r)) ->
  forall (xs ys : list Z) (k : nat) (t1 t2 : string),
    length xs = length ys -> stops t1 -> stops t2 ->
    (String.concat sep (items pre post k xs) ++ t1
     = String.concat sep (items pre post k ys) ++ t2)%string ->
    xs = ys /\ t1 = t2.
Proof.
  intros Hsep Hpost.
  induction xs as [|x xs IH]; intros [|y ys] k t1 t2 Hlen S1 S2 H;
    try discriminate.
  - now split.
  - destruct xs as [|x' xs], ys as [|y' ys]; try discriminate.
    + cbn [items String.concat] in H. rewrite !sapp_assoc in H.
      apply sapp_inv_head in H.
      apply split_numeric in H; auto using numeric_str.
      destruct H as [Hx H]. apply str_inj in Hx. apply sapp_inv_head in H.
      subst. now split.
    + change (items pre post k (x :: x' :: xs))
        with ((pre k ++ str x ++ post k)%string
              :: items pre post (S k) (x' :: xs)) in H.
      change (items pre post k (y :: y' :: ys))
        with ((pre k ++ str y ++ post k)%string
              :: items pre post (S k) (y' :: ys)) in H.
      assert (Hc : forall (h : string) (z : Z) (zs : list Z),
                (String.concat sep (h :: items pre post (S k) (z :: zs))
                 = h ++ sep
                   ++ String.concat sep
                        (items pre post (S k) (z :: zs)))%string)
        by reflexivity.
      rewrite !Hc in H. rewrite !sapp_assoc in H.
      apply sapp_inv_head in H.
      apply split_numeric in H; auto using numeric_str.
      destruct H as [Hx H]. apply str_inj in Hx. apply sapp_inv_head in H.
      apply sapp_inv_head in H.
      destruct (IH (y' :: ys) (S k) t1 t2) as [E ->]; auto.
      subst. rewrite E. now split.
Qed.

Lemma mapM_ext_range {B : Type} (g f : Z -> result B) (n : Z) :
  (forall i, 0 <= i -> f i = g i) -> mapM f (range n) = mapM g (range n).
Proof.
  intros H. unfold range. induction (seq 0 (Z.to_nat n)) as [|i l IH];
    [reflexivity|].
  cbn [map mapM]. rewrite H, IH by lia. reflexivity.
Qed.

Lemma getitem_in_range (l : list Z) (i : nat) :
  (i < length l)%nat -> getitem l (Z.of_nat i) = OK (nth i l 0).
Proof.
  intros Hi. unfold getitem, len.
  replace (Z.of_nat i <? 0) with false by (symmetry; apply Z.ltb_ge; lia).
  replace (Z.of_nat i <? 0) with false by (symmetry; apply Z.ltb_ge; lia).
  replace (Z.of_nat (length l) <=? Z.of_nat i) with false
    by (symmetry; apply Z.leb_gt; lia).
  cbn [orb]. now rewrite Nat2Z.id.
Qed.

Lemma map_items (pre post : nat -> string) (l : list Z) (k : nat) :
  map (fun i => (pre (k + i)%nat ++ str (nth i l 0) ++ post (k + i)%nat)%string)
      (seq 0 (length l))
  = items pre post k l.
Proof.
  revert k; induction l as [|x l IH]; intros k; [reflexivity|].
  cbn [length seq map items nth]. rewrite Nat.add_0_r. f_equal.
  rewrite <- seq_shift, map_map, <- IH. apply map_ext. intros i.
  cbn [nth]. now replace (k + S i)%nat with (S k + i)%nat by lia.
Qed.

(** The list comprehensions of [__repr__] on a list as long as the range. *)
Lemma mapM_items (pre post : nat -> string) (l : list Z) :
  mapM (fun i => x <- getitem l i ;;
                 OK (pre (Z.to_nat i) ++ str x ++ post (Z.to_nat i))%string)
       (range (len l))
  = OK (items pre post 0 l).
Proof.
  rewrite (mapM_ok _ (fun i => (pre (Z.to_nat i)
                                ++ str (nth (Z.to_nat i) l 0)
                                ++ post (Z.to_nat i))%string)).
  - f_equal. unfold range, len. rewrite Nat2Z.id, map_map.
    rewrite <- (map_items pre post l 0). apply map_ext. intros i.
    now rewrite Nat2Z.id.
  - intros x Hx. unfold range, len in Hx. rewrite Nat2Z.id in Hx.
    apply in_map_iff in Hx. destruct Hx as (i & <- & Hi).
    apply in_seq in Hi. rewrite getitem_in_range by lia.
    cbn [bind]. now rewrite Nat2Z.id.
Qed.

(** The description of a constructed object. *)
Lemma repr_constructed (u0 a0 : list Z) (self : LinearRecurrenceSequence) :
  __init__ u0 a0 = OK self ->
  __repr__ self
  = OK ("Linear recurrence sequence defined by: u_{n+" ++ str (len u0)
        ++ "} = "
        ++ String.concat " + "
             (items (fun _ => ""%string) (definition_post (len u0)) 0 a0)
        ++ ";" ++ newline ++ "With initial conditions: "
        ++ String.concat ", "
             (items initial_pre (fun _ => ""%string) 0 u0))%string.
Proof.
  intros H. destruct (init_inv _ _ H) as (-> & Hl & _).
  unfold __repr__. cbn [u a d].
  rewrite (mapM_ext_range
             (fun i => x <- getitem u0 i ;;
                       OK (initial_pre (Z.to_nat i) ++ str x ++ "")%string)).
  - rewrite (mapM_items initial_pre (fun _ => ""%string) u0). cbn [bind].
    assert (Ha : len u0 = len a0) by (unfold len; lia).
    rewrite Ha at 1.
    rewrite (mapM_ext_range
               (fun i => c <- getitem a0 i ;;
                         OK ("" ++ str c
                             ++ definition_post (len u0) (Z.to_nat i))%string)).
    + rewrite (mapM_items (fun _ => ""%string) (definition_post (len u0)) a0).
      reflexivity.
    + intros i Hi. destruct (getitem a0 i); [|reflexivity|reflexivity]. cbn [bind].
      unfold definition_post. rewrite Z2Nat.id by lia. reflexivity.
  - intros i Hi. destruct (getitem u0 i); [|reflexivity|reflexivity]. cbn [bind].
    unfold initial_pre. rewrite Z2Nat.id, !sapp_assoc, sapp_nil_r by lia.
    reflexivity.
Qed.

Arguments repr_constructed [u0 a0 self] _.

(** X14: the description is faithful: [__repr__] returns a string on every
    constructed object, and two constructed objects have the same
    description exactly when [__eq__] holds between them. *)
Theorem repr_faithful (u1 a1 u2 a2 : list Z)
    (s1 s2 : LinearRecurrenceSequence) :
  __init__ u1 a1 = OK s1 ->
  __init__ u2 a2 = OK s2 ->
  (exists r, __repr__ s1 = OK r)
  /\ (__repr__ s1 = __repr__ s2 <-> __eq__ s1 s2 = true).
Proof.
  intros H1 H2. split.
  - eexists. apply (repr_constructed H1).
  - rewrite eq_true_iff.
    destruct (init_inv _ _ H1) as (E1 & L1 & _).
    destruct (init_inv _ _ H2) as (E2 & L2 & _).
    split.
    + rewrite (repr_constructed H1), (repr_constructed H2).
      intros H. injection H as H.
      apply split_numeric in H; auto using numeric_str; try reflexivity.
      destruct H as [Hd H]. apply str_inj in Hd. injection H as H.
      rewrite Hd in H.
      assert (Hlen : length a1 = length a2) by (unfold len in Hd; lia).
      apply concat_items_inj in H; try reflexivity; try assumption.
      destruct H as [Ha H]. injection H as H.
      rewrite <- (sapp_nil_r (String.concat _ (items _ _ 0 u1))) in H.
      rewrite <- (sapp_nil_r (String.concat _ (items _ _ 0 u2))) in H.
      apply concat_items_inj in H; try reflexivity;
        try (unfold len in Hd; lia).
      * destruct H as [Hu _]. subst s1 s2. cbn [u a]. now split.
      * intros i r Hr. exact Hr.
    + intros [Hu Ha]. subst s1 s2. cbn [u a] in Hu, Ha. now subst.
Qed.

Lemma repr_faithful_witness :
  (exists r, __repr__ tribonacci = OK r)
  /\ (__repr__ tribonacci = __repr__ (mkLRS [0; 1; 2] [-2; 1; 2] 3)
      <-> __eq__ tribonacci (mkLRS [0; 1; 2] [-2; 1; 2] 3) = true).
Proof.
  apply (@repr_faithful [0; 0; 1] [1; 1; 1] [0; 1; 2] [-2; 1; 2]);
    reflexivity.
Defined.

(** ** The sample of the minimal polynomial *)

(** X15: the sample handed to Berlekamp-Massey satisfies the recurrence of
    the characteristic polynomial, so that a recurrence of degree at most
    [d] is there to be found in it. *)
Theorem bm_input_satisfies_characteristic (u0 a0 : list Z)
    (self : LinearRecurrenceSequence) :
  __init__ u0 a0 = OK self ->
  exists input p,
    bm_input self = OK input
    /\ characteristic_polynomial self = OK p
    /\ satisfies (map Z2Qc p) input.
Proof.
  intros Hvalid.
  exists (map (value self) (seq 0 (2 * length (a self)))),
         (map Z.opp (rev (a self)) ++ [1]).
  split; [apply (bm_input_values Hvalid)|].
  split; [apply characteristic_polynomial_list|].
  intros n Hn. rewrite (length_map (value self)), length_seq in Hn.
  rewrite (@act_sample (value self) (2 * length (a self)) _ n Hn).
  rewrite map_app. apply (charpoly_annihilates Hvalid).
Qed.

Lemma bm_input_satisfies_characteristic_witness :
  exists input p,
    bm_input tribonacci = OK input
    /\ characteristic_polynomial tribonacci = OK p
    /\ satisfies (map Z2Qc p) input.
Proof.
  apply (@bm_input_satisfies_characteristic [0; 0; 1] [1; 1; 1] tribonacci).
  reflexivity.
Defined.

(** X16: when Berlekamp-Massey reports the monic recurrence of least degree
    satisfied by the sample, with or without its factors [x], say [k] of
    them left out, then [k] plus the length of the minimal polynomial is at
    most [d + 1], and past its first [k] terms the whole sequence, not only
    the sample, satisfies the recurrence of the minimal polynomial. *)
Theorem minimal_polynomial_recurrence
    (berlekamp_massey : list Z -> result (list Qc))
    (u0 a0 : list Z) (self : LinearRecurrenceSequence)
    (input : list Z) (p : list Qc) (N : nat) (terms : list Z) :
  __init__ u0 a0 = OK self ->
  bm_input self = OK input ->
  minimal_polynomial berlekamp_massey self = OK p ->
  berlekamp_massey_reports input p ->
  mapM (term self) (range (Z.of_nat N)) = OK terms ->
  exists k : nat,
    shortest_recurrence input (repeat 0%Qc k ++ p)
    /\ (Z.of_nat (k + length p) <= d self + 1)%Z
    /\ satisfies p (skipn k terms).
Proof.
  intros Hvalid Hin _ (j & Hshortest) Hterms.
  exists j. split; [exact Hshortest|].
  destruct Hshortest as (Hmonic & Hsat & Hleast).
  destruct (valid_lengths Hvalid) as (Hl & H3 & Hd).
  assert (E : input = map (value self) (seq 0 (2 * length (a self))))
    by (rewrite (bm_input_values Hvalid) in Hin; congruence).
  subst input.
  set (pm := repeat 0%Qc j ++ p) in *.
  set (m := (2 * length (a self))%nat) in *.
  set (s := fun k => Z2Qc (value self k)).
  set (c' := map Z2Qc (map Z.opp (rev (a self)))).
  assert (Hlc : length c' = length (a self))
    by (unfold c'; now rewrite !length_map, length_rev).
  assert (Hlen : length (map (value self) (seq 0 m)) = m)
    by (now rewrite length_map, length_seq).
  assert (Hc : forall n, (act (c' ++ [1%Qc]) s n = 0)%Qc)
    by (intros n; apply (charpoly_annihilates Hvalid)).
  assert (Hs : forall n, (n + length pm <= 2 * length c')%nat ->
                         (act pm s n = 0)%Qc).
  { intros n Hn. rewrite Hlc in Hn. fold m in Hn.
    unfold s. rewrite <- (@act_sample (value self) m pm n Hn).
    apply Hsat. rewrite Hlen. exact Hn. }
  assert (Hle : forall q, monic q ->
            (forall n, (n + length q <= 2 * length c')%nat ->
                       (act q s n = 0)%Qc) ->
            (length pm <= length q)%nat).
  { intros q Hq Hqs. apply Hleast; [exact Hq|].
    intros n Hn. rewrite Hlen in Hn.
    rewrite (@act_sample (value self) m q n Hn). apply Hqs.
    rewrite Hlc. exact Hn. }
  split.
  - pose proof (@p_short s c' Hc pm Hle) as Hshort.
    unfold pm in Hshort. rewrite length_app, repeat_length in Hshort. lia.
  - rewrite (mapM_ok _ (fun k => value self (Z.to_nat k))) in Hterms.
    + injection Hterms as <-. unfold range. rewrite Nat2Z.id, map_map.
      rewrite (map_ext _ (value self)) by (intros k; now rewrite Nat2Z.id).
      intros n Hn.
      rewrite length_skipn, (length_map (value self)), length_seq in Hn.
      rewrite (act_ext_range p _ (fun i => s (i + j)%nat)).
      * rewrite act_shift_by, <- act_zeros_app.
        apply (@p_ann s c' Hc pm Hs Hle).
      * intros i Hi. unfold sample_seq, s. rewrite nth_skipn.
        rewrite (nth_indep _ 0 (value self O))
          by (rewrite length_map, length_seq; lia).
        rewrite map_nth, seq_nth by lia. do 2 f_equal. lia.
    + intros k Hk. apply (term_total Hvalid).
      unfold range in Hk. apply in_map_iff in Hk.
      destruct Hk as (i & <- & _). lia.
Qed.

Lemma minimal_polynomial_recurrence_witness :
  exists k : nat,
    shortest_recurrence [0; 0; 1; 1; 1; 1]
      (repeat 0%Qc k ++ eventually_one_polynomial)
    /\ (Z.of_nat (k + length eventually_one_polynomial) <= 3 + 1)%Z
    /\ satisfies eventually_one_polynomial
         (skipn k [0; 0; 1; 1; 1; 1; 1; 1; 1; 1]).
Proof.
  apply (@minimal_polynomial_recurrence
           (fun _ => OK eventually_one_polynomial)
           [0; 0; 1] [1; 0; 0] eventually_one [0; 0; 1; 1; 1; 1]
           eventually_one_polynomial 10).
  - reflexivity.
  - vm_compute. reflexivity.
  - vm_compute. reflexivity.
  - exact eventually_one_reports.
  - vm_compute. reflexivity.
Defined.

(** ** A negative modulus *)

(** The claim C8 fails: a negative modulus raises nothing, the fifth
    Tribonacci term with modulus [-7] is [4]. *)
Lemma call_invalid_modulus_counterexample :
  __init__ [0; 0; 1] [1; 1; 1] = OK tribonacci
  /\ 0 <= 5 /\ -7 < 0
  /\ __call__ tribonacci 5 (-7) = OK 4
  /\ __call__ tribonacci 5 (-7) <> Raise InvalidModulus.
Proof.
  assert (E : __call__ tribonacci 5 (-7) = OK 4) by (vm_compute; reflexivity).
  repeat split; try reflexivity; try lia; try exact E.
  rewrite E. discriminate.
Qed.

(** C8, amended: a call at an index from zero on with a negative modulus
    raises no exception, [InvalidModulus] included: the modulus is taken in
    absolute value, so that the call returns the unreduced term modulo
    [-modulus], as the call with modulus [-modulus] does. *)
Theorem call_negative_modulus (u0 a0 : list Z)
    (self : LinearRecurrenceSequence) (n modulus : Z) :
  __init__ u0 a0 = OK self ->
  0 <= n ->
  modulus < 0 ->
  (exists x, term self n = OK x
             /\ __call__ self n modulus = OK (x mod (- modulus)))
  /\ __call__ self n modulus = __call__ self n (- modulus)
  /\ (forall e, __call__ self n modulus <> Raise e).
Proof.
  intros Hvalid Hn Hm.
  assert (H : __call__ self n modulus
              = OK (value self (Z.to_nat n) mod (- modulus))).
  { rewrite call_reduced, (term_total Hvalid Hn), Integers_nonzero by lia.
    cbn [bind coerce]. now rewrite Z.abs_neq by lia. }
  split; [|split].
  - exists (value self (Z.to_nat n)). split; [apply (term_total Hvalid Hn)|].
    exact H.
  - rewrite H, call_reduced, (term_total Hvalid Hn), Integers_positive by lia.
    reflexivity.
  - intros e. rewrite H. discriminate.
Qed.

Lemma call_negative_modulus_witness :
  (exists x, term tribonacci 5 = OK x
             /\ __call__ tribonacci 5 (-7) = OK (x mod (- -7)))
  /\ __call__ tribonacci 5 (-7) = __call__ tribonacci 5 (- -7)
  /\ (forall e, __call__ tribonacci 5 (-7) <> Raise e).
Proof.
  apply (@call_negative_modulus [0; 0; 1] [1; 1; 1] tribonacci 5 (-7)).
  - reflexivity.
  - lia.
  - lia.
Defined.

(** ** A negative index *)
















Section Backward.

Variable coeffs : list Z.
Hypothesis order_pos : (1 <= length coeffs)%nat.
Variable init : list Z.
Hypothesis init_length : length init = length coeffs.

(** An inverse [N / D] of the companion matrix, with [D = 1] or [D = -1]. *)
Variables (N : matrix) (D : Z).
Hypothesis N_square : square (length coeffs) N.
Hypothesis N_inverse :
  mat_mul ZZ (companion_matrix (map Z.opp (rev coeffs) ++ [1])) N
  = scalar_matrix ZZ D (length coeffs).
Hypothesis D_unit : D * D = 1.







End Backward.




Section BackwardTerms.

Variables (u0 a0 : list Z) (self : LinearRecurrenceSequence).
Hypothesis Hvalid : __init__ u0 a0 = OK self.
Variables (N : matrix) (D : Z).
Hypothesis Hinv : inverse ZZ (transformation_matrix self) = OK (N, D).
Hypothesis D_unit : D * D = 1.






End BackwardTerms.



